(** * Cloud Chamber Trainer: geometry helpers, scenario catalogue, quiz state

    A shallow embedding of [cloud_chamber_gui.py].

    Conventions of the embedding.
    - Python numbers of the geometry layer ([int] and [float] mixed by true
      division and by [math.cos]/[math.sin]) are read as real numbers: the
      arithmetic is exact, so the statements below are the ones the
      geometry satisfies up to rounding of the binary64 operations.
    - Python exceptions are values of [exn]; a function that can raise
      returns a [result].
    - The Tk canvas is the display list of the items created on it, in
      creation order, together with its configured width and height.
    - [random.choice] takes the drawn number as an explicit argument.
    - Counters ([rounds], [score], [npts]) are Python [int]s, hence [Z]. *)

From Stdlib Require Import String Ascii List ZArith Reals Lra Lia Bool.
From Stdlib Require Import DecimalString Sorted.
Import ListNotations.

Open Scope string_scope.
Open Scope list_scope.
Open Scope Z_scope.
Open Scope R_scope.

(** ** Exceptions *)

Inductive exn : Set :=
| ZeroDivisionError
| IndexError
| TypeError.

Inductive result (A : Type) : Type :=
| Ok (a : A)
| Raise (e : exn).

Arguments Ok {A} a.
Arguments Raise {A} e.

Definition bind {A B : Type} (c : result A) (k : A -> result B) : result B :=
  match c with
  | Ok a => k a
  | Raise e => Raise e
  end.

Notation "x <- c ;; k" := (bind c (fun x => k))
  (at level 61, c at next level, right associativity).
Notation "' ( x , y ) <- c ;; k" := (bind c (fun '(x, y) => k))
  (at level 61, x name, y name, c at next level, right associativity).

Fixpoint mapM {A B : Type} (f : A -> result B) (l : list A) : result (list B) :=
  match l with
  | [] => Ok []
  | a :: l' => b <- f a ;; bs <- mapM f l' ;; Ok (b :: bs)
  end.

Fixpoint foldM {A S : Type} (f : S -> A -> result S) (s : S) (l : list A)
  : result S :=
  match l with
  | [] => Ok s
  | a :: l' => s' <- f s a ;; foldM f s' l'
  end.

(** [a / b] on Python numbers: raises when the divisor is zero. *)
Definition truediv (a b : R) : result R :=
  if Req_dec_T b 0 then Raise ZeroDivisionError else Ok (a / b).

(** [range(n)] *)
Definition range (n : Z) : list Z := map Z.of_nat (seq 0 (Z.to_nat n)).

(** ** Text content *)

Definition nl : string := String (ascii_of_nat 10) EmptyString.

Definition CHOICES : list string :=
  [ "electron (e−)";
    "positron (e+)";
    "muon (μ−)";
    "muon (μ+)";
    "photon (γ) → e⁺e⁻ pair";
    "proton (p)";
    "neutron (n) (no visible primary track)" ].

Definition TRACK_COLOR : string := "crimson".

(** ** Geometry helpers *)

Definition point : Type := R * R.

Record World : Type := mkWorld {
  xmin : R; xmax : R;
  ymin : R; ymax : R;
  margin : R
}.

(** [World()] with its default arguments. *)
Definition World_default : World := mkWorld (-10) 10 (-10) 10 40.

(** Map world (x,y) -> canvas (X,Y). y up in world, down in canvas. *)
Definition to_canvas (self : World) (x y width height : R) : result (R * R) :=
  let W := width - 2 * margin self in
  let H := height - 2 * margin self in
  qx <- truediv (x - xmin self) (xmax self - xmin self) ;;
  let X := margin self + qx * W in
  qy <- truediv (ymax self - y) (ymax self - ymin self) ;;
  let Y := margin self + qy * H in
  Ok (X, Y).

(** ** The canvas *)

Definition font : Type := (string * Z * string)%type.

Inductive item : Type :=
| create_line (coords : list R) (width : Z) (smooth : bool)
    (splinesteps : option Z) (dash : option (list Z)) (fill : option string)
| create_polygon (coords : list R) (fill : string)
| create_text (x y : R) (text : string) (anchor : option string)
    (fnt : option font)
| create_oval (x0 y0 x1 y1 : R) (width : option Z)
    (fill outline : option string).

Record Canvas : Type := mkCanvas {
  cv_width : Z;
  cv_height : Z;
  items : list item
}.

Definition add_item (it : item) (canvas : Canvas) : Canvas :=
  mkCanvas (cv_width canvas) (cv_height canvas) (items canvas ++ [it]).

(** [canvas.delete("all")] *)
Definition delete_all (canvas : Canvas) : Canvas :=
  mkCanvas (cv_width canvas) (cv_height canvas) [].

(** ** Drawing *)

Definition draw_axes (canvas : Canvas) (world : World) : result Canvas :=
  let w := IZR (cv_width canvas) in
  let h := IZR (cv_height canvas) in
  (* y-axis *)
  '(x0, y0) <- to_canvas world (-9.0) (-9.0) w h ;;
  '(x1, y1) <- to_canvas world (-9.0) 9.0 w h ;;
  let canvas := add_item (create_line [x0; y0; x1; y1] 1 false None None None) canvas in
  let canvas := add_item (create_polygon [x1; y1; x1 - 6; y1 + 12; x1 + 6; y1 + 12] "black") canvas in
  let canvas := add_item (create_text (x1 - 15) (y1 - 15) "y" (Some "e") None) canvas in
  (* x-axis *)
  '(x2, y2) <- to_canvas world (-9.0) (-9.0) w h ;;
  '(x3, y3) <- to_canvas world 9.0 (-9.0) w h ;;
  let canvas := add_item (create_line [x2; y2; x3; y3] 1 false None None None) canvas in
  let canvas := add_item (create_polygon [x3; y3; x3 - 12; y3 - 6; x3 - 12; y3 + 6] "black") canvas in
  let canvas := add_item (create_text (x3 - 10) (y3 + 15) "x" (Some "w") None) canvas in
  Ok canvas.

(** Draw the field-glyph grid and a note about the direction. *)
Definition draw_Bfield (canvas : Canvas) (world : World) : result Canvas :=
  let w := IZR (cv_width canvas) in
  let h := IZR (cv_height canvas) in
  let xs := [-6; -2; 2; 6] in
  let ys := [6; 3; 0; -3; -6] in
  canvas <- foldM (fun canvas y =>
    foldM (fun canvas x =>
      '(cx, cy) <- to_canvas world x y w h ;;
      let r := 10 in
      let canvas := add_item (create_oval (cx - r) (cy - r) (cx + r) (cy + r) (Some 1%Z) None None) canvas in
      let canvas := add_item (create_line [cx - r * 0.7; cy - r * 0.7; cx + r * 0.7; cy + r * 0.7] 1 false None None None) canvas in
      let canvas := add_item (create_line [cx - r * 0.7; cy + r * 0.7; cx + r * 0.7; cy - r * 0.7] 1 false None None None) canvas in
      Ok canvas) canvas xs) canvas ys ;;
  let canvas := add_item (create_text 10 10 "B field:" (Some "nw") (Some ("TkDefaultFont", 11%Z, "bold"))) canvas in
  let canvas := add_item (create_text 62 3 "⊗" (Some "nw") (Some ("TkDefaultFont", 22%Z, "bold"))) canvas in
  let canvas := add_item (create_text 80 10 "into page" (Some "nw") (Some ("TkDefaultFont", 11%Z, "bold"))) canvas in
  Ok canvas.

Definition polyline (canvas : Canvas) (pts : list point) (world : World)
    (width : Z) (dash : option (list Z)) (fill : string) : result Canvas :=
  let w := IZR (cv_width canvas) in
  let h := IZR (cv_height canvas) in
  xy <- foldM (fun xy '(x, y) =>
          '(X, Y) <- to_canvas world x y w h ;;
          Ok (xy ++ [X; Y])) [] pts ;;
  Ok (add_item (create_line xy width true (Some 24%Z) dash (Some fill)) canvas).

(** Archimedean spiral polyline around fixed center. *)
Definition spiral (center : point) (r_start r_end turns : R) (ccw : bool)
    (npts : Z) (start_angle : R) : result (list point) :=
  let '(cx, cy) := center in
  let theta0 := start_angle in
  let theta1 := start_angle + (if ccw then 2 * PI * turns else (-2) * PI * turns) in
  mapM (fun i =>
    t <- truediv (IZR i) (IZR (npts - 1)) ;;
    let th := theta0 + t * (theta1 - theta0) in
    let r := r_start + t * (r_end - r_start) in
    let x := cx + r * cos th in
    let y := cy + r * sin th in
    Ok (x, y)) (range npts).

Definition arc (center : point) (radius angle_start angle_end : R)
    (ccw : bool) (npts : Z) : result (list point) :=
  let '(cx, cy) := center in
  let th0 := angle_start in
  let th1 := if ccw then angle_end else angle_start - (angle_end - angle_start) in
  mapM (fun i =>
    t <- truediv (IZR i) (IZR (npts - 1)) ;;
    let th := th0 + t * (th1 - th0) in
    let x := cx + radius * cos th in
    let y := cy + radius * sin th in
    Ok (x, y)) (range npts).

(** Default sample counts of the two generators. *)
Definition spiral_npts : Z := 500.
Definition arc_npts : Z := 180.

(** ** Scenarios *)

(** The hint dictionary of a scenario, keys 'sign', 'curv', 'ion', 'special';
    Python's [None] under 'special' is [None]. *)
Record Tags : Type := mkTags {
  sign : string;
  curv : string;
  ion : string;
  special : option string
}.

(** A scenario dictionary, keys 'answer', 'explain', 'tags', 'draw'. *)
Record Scenario : Type := mkScenario {
  answer : string;
  explain : string;
  tags : Tags;
  draw : Canvas -> World -> result Canvas
}.

Definition THIN : Z := 2.
Definition THICK : Z := 5.

(** Start tracks in midpage to keep arcs on-screen *)
Definition y0 : R := 0.0.

(** e+ left tight spiral (starts at origin, initial motion upward) *)
Definition draw_eplus (canvas : Canvas) (world : World) : result Canvas :=
  let r_start := 3.0 in
  let r_end := 0.6 in
  let cx := - r_start in
  let cy := y0 in
  pts <- spiral (cx, cy) r_start r_end 3.2 true spiral_npts 0.0 ;;
  polyline canvas pts world THIN None TRACK_COLOR.

(** e− right tight spiral *)
Definition draw_eminus (canvas : Canvas) (world : World) : result Canvas :=
  let r_start := 3.0 in
  let r_end := 0.6 in
  let cx := r_start in
  let cy := y0 in
  pts <- spiral (cx, cy) r_start r_end 3.2 false spiral_npts PI ;;
  polyline canvas pts world THIN None TRACK_COLOR.

(** μ− right gentle arc (minimum ionizing, thin) *)
Definition draw_muminus (canvas : Canvas) (world : World) : result Canvas :=
  let r := 20.0 in
  let cx := r in
  let cy := y0 in
  pts <- arc (cx, cy) r PI (PI - 0.5) false 160 ;;
  polyline canvas pts world THIN None TRACK_COLOR.

(** μ+ left gentle arc (minimum ionizing, thin) *)
Definition draw_muplus (canvas : Canvas) (world : World) : result Canvas :=
  let r := 20.0 in
  let cx := - r in
  let cy := y0 in
  pts <- arc (cx, cy) r 0.0 0.5 true 160 ;;
  polyline canvas pts world THIN None TRACK_COLOR.

(** proton left gentle arc, thick *)
Definition draw_proton (canvas : Canvas) (world : World) : result Canvas :=
  let r := 20.0 in
  let cx := - r in
  let cy := y0 in
  pts <- arc (cx, cy) r 0.0 0.5 true 160 ;;
  polyline canvas pts world THICK None TRACK_COLOR.

(** photon conversion: displaced V with faint opposite-curving arms *)
Definition draw_gamma_pair (canvas : Canvas) (world : World) : result Canvas :=
  let vx := 0.0 in
  let vy := 0.0 in
  let r := 6.0 in
  (* e+ (left-curving, thin) *)
  let cx1 := vx - r in
  let cy1 := vy in
  pts1 <- arc (cx1, cy1) r 0.0 0.9 true 120 ;;
  canvas <- polyline canvas pts1 world THIN None TRACK_COLOR ;;
  (* e- (right-curving, thin) *)
  let cx2 := vx + r in
  let cy2 := vy in
  pts2 <- arc (cx2, cy2) r PI (PI - 0.9) false 120 ;;
  canvas <- polyline canvas pts2 world THIN None TRACK_COLOR ;;
  (* vertex marker *)
  let w := IZR (cv_width canvas) in
  let h := IZR (cv_height canvas) in
  '(X, Y) <- to_canvas world vx vy w h ;;
  Ok (add_item (create_oval (X - 3) (Y - 3) (X + 3) (Y + 3) None (Some "black") (Some "")) canvas).

(** neutron: draws nothing for the track itself; the background (axes,
    B-field, arrow stub) is managed elsewhere. *)
Definition draw_neutron (canvas : Canvas) (world : World) : result Canvas :=
  Ok canvas.

Definition make_scenarios : list Scenario :=
  let scenarios := [] in
  let scenarios := scenarios ++ [mkScenario
    "positron (e+)"
    "Left-curving tight spiral ⇒ low-p, positive, light → e⁺."
    (mkTags "+" "tight" "faint" None)
    draw_eplus] in
  let scenarios := scenarios ++ [mkScenario
    "electron (e−)"
    "Right-curving tight spiral ⇒ low-p, negative, very light → e⁻."
    (mkTags "-" "tight" "faint" None)
    draw_eminus] in
  let scenarios := scenarios ++ [mkScenario
    "muon (μ−)"
    "Long gentle right arc; thin ionization → high-p negative MIP → μ⁻."
    (mkTags "-" "gentle" "thin" None)
    draw_muminus] in
  let scenarios := scenarios ++ [mkScenario
    "muon (μ+)"
    "Long gentle left arc; thin ionization → high-p positive MIP → μ⁺."
    (mkTags "+" "gentle" "thin" None)
    draw_muplus] in
  let scenarios := scenarios ++ [mkScenario
    "proton (p)"
    "Left gentle arc with heavy dE/dx (thick) → slow heavy positive → proton."
    (mkTags "+" "gentle" "thick" None)
    draw_proton] in
  let scenarios := scenarios ++ [mkScenario
    "photon (γ) → e⁺e⁻ pair"
    "No incoming track; displaced V with opposite-curving faint arms → γ conversion to e⁺e⁻."
    (mkTags "0" "pair" "faint" (Some "conversion"))
    draw_gamma_pair] in
  let scenarios := scenarios ++ [mkScenario
    "neutron (n) (no visible primary track)"
    "No charged track; neutral particle. (Sometimes a short recoil stub.)"
    (mkTags "0" "none" "none" None)
    draw_neutron] in
  scenarios.

(** [random.choice(seq)] with the drawn number [r] made explicit: the
    element at index [r mod len(seq)]; an empty sequence raises. *)
Definition random_choice {A : Type} (r : nat) (seq : list A) : result A :=
  match seq with
  | [] => Raise IndexError
  | _ :: _ =>
      match nth_error seq (r mod length seq) with
      | Some a => Ok a
      | None => Raise IndexError
      end
  end.

(** The clue phrases composed from a tag dictionary. *)
Definition tag_bits_of (tags : Tags) : list string :=
  let tag_bits := [] in
  if match special tags with Some s => String.eqb s "conversion" | None => false end
  then tag_bits ++ ["conversion V with opposite curvature"]
  else
    let tag_bits :=
      if String.eqb (sign tags) "+" || String.eqb (sign tags) "-"
      then tag_bits ++ [String.append "turns " (if String.eqb (sign tags) "+" then "left (+)" else "right (−)")]
      else if String.eqb (sign tags) "0"
           then tag_bits ++ ["neutral (no primary)"]
           else tag_bits in
    let tag_bits := tag_bits ++ [String.append (curv tags) " curvature"] in
    let tag_bits :=
      if negb (String.eqb (ion tags) "none")
      then tag_bits ++ [String.append (ion tags) " ionization"]
      else tag_bits in
    tag_bits.

(** [str(n)] for a Python [int]. *)
Definition str_of_int (n : Z) : string := NilZero.string_of_int (Z.to_int n).

(** ** The game page *)

(** The fields of [GamePage] the handlers read or write.  [choice_var] is the
    [StringVar] behind the radio buttons, [msg] the contents of the feedback
    text widget, [score_lbl] the text of the score label, and [dialogs] the
    [messagebox.showinfo] calls made so far, as (title, message). *)
Record GamePage : Type := mkGamePage {
  world : World;
  scenarios : list Scenario;
  current : option Scenario;
  rounds : Z;
  score : Z;
  answered : bool;
  canvas : Canvas;
  choice_var : string;
  msg : string;
  score_lbl : string;
  dialogs : list (string * string)
}.

Definition set_current (v : option Scenario) (g : GamePage) : GamePage :=
  mkGamePage (world g) (scenarios g) v (rounds g) (score g) (answered g)
    (canvas g) (choice_var g) (msg g) (score_lbl g) (dialogs g).
Definition set_rounds (v : Z) (g : GamePage) : GamePage :=
  mkGamePage (world g) (scenarios g) (current g) v (score g) (answered g)
    (canvas g) (choice_var g) (msg g) (score_lbl g) (dialogs g).
Definition set_score (v : Z) (g : GamePage) : GamePage :=
  mkGamePage (world g) (scenarios g) (current g) (rounds g) v (answered g)
    (canvas g) (choice_var g) (msg g) (score_lbl g) (dialogs g).
Definition set_answered (v : bool) (g : GamePage) : GamePage :=
  mkGamePage (world g) (scenarios g) (current g) (rounds g) (score g) v
    (canvas g) (choice_var g) (msg g) (score_lbl g) (dialogs g).
Definition set_canvas (v : Canvas) (g : GamePage) : GamePage :=
  mkGamePage (world g) (scenarios g) (current g) (rounds g) (score g)
    (answered g) v (choice_var g) (msg g) (score_lbl g) (dialogs g).
Definition set_choice_var (v : string) (g : GamePage) : GamePage :=
  mkGamePage (world g) (scenarios g) (current g) (rounds g) (score g)
    (answered g) (canvas g) v (msg g) (score_lbl g) (dialogs g).
Definition msg_set (text : string) (g : GamePage) : GamePage :=
  mkGamePage (world g) (scenarios g) (current g) (rounds g) (score g)
    (answered g) (canvas g) (choice_var g) text (score_lbl g) (dialogs g).
Definition set_score_lbl (v : string) (g : GamePage) : GamePage :=
  mkGamePage (world g) (scenarios g) (current g) (rounds g) (score g)
    (answered g) (canvas g) (choice_var g) (msg g) v (dialogs g).
(** [messagebox.showinfo(title, message)] *)
Definition showinfo (title message : string) (g : GamePage) : GamePage :=
  mkGamePage (world g) (scenarios g) (current g) (rounds g) (score g)
    (answered g) (canvas g) (choice_var g) (msg g) (score_lbl g)
    (dialogs g ++ [(title, message)]).

(** Subscripting [self.current]: [None] is not subscriptable. *)
Definition subscript (cur : option Scenario) : result Scenario :=
  match cur with
  | Some s => Ok s
  | None => Raise TypeError
  end.

Definition draw_background (self : GamePage) : result GamePage :=
  let cv := delete_all (canvas self) in
  cv <- draw_Bfield cv (world self) ;;
  cv <- draw_axes cv (world self) ;;
  (* initial upward stub centered (midpage) *)
  let w := IZR (cv_width cv) in
  let h := IZR (cv_height cv) in
  '(x0, y0) <- to_canvas (world self) 0.0 (-0.5) w h ;;
  '(x1, y1) <- to_canvas (world self) 0.0 0.5 w h ;;
  let cv := add_item (create_line [x0; y0; x1; y1] 3 false None None None) cv in
  let cv := add_item (create_text (x1 + 8) (y1 - 10) "↑" None (Some ("TkDefaultFont", 12%Z, "bold"))) cv in
  Ok (set_canvas cv self).

Definition new_round (r : nat) (self : GamePage) : result GamePage :=
  let self := set_answered false self in
  let self := set_choice_var "" self in
  let self := msg_set "Pick the particle based on curvature (sign), radius (momentum), and line width (dE/dx)." self in
  self <- draw_background self ;;
  cur <- random_choice r (scenarios self) ;;
  let self := set_current (Some cur) self in
  cv <- draw cur (canvas self) (world self) ;;
  Ok (set_canvas cv self).

Definition update_score (self : GamePage) : GamePage :=
  set_score_lbl
    (String.concat "" ["Score: "; str_of_int (score self); "/"; str_of_int (rounds self)])
    self.

(** The feedback text composed by [on_submit]. *)
Definition feedback_text (cur : Scenario) (correct : bool) : string :=
  let verdict := if correct then "✓ Correct!" else "✗ Not quite." in
  let tag_bits := tag_bits_of (tags cur) in
  String.concat ""
    [ "Answer: "; answer cur; nl; nl; verdict; nl; nl;
      "Reasoning: "; explain cur; nl; nl;
      "Clues: "; String.concat ", " tag_bits ].

Definition on_submit (self : GamePage) : result GamePage :=
  if answered self then Ok self
  else
    let sel := choice_var self in
    if String.eqb sel "" then
      Ok (showinfo "Choose one" "Please select an answer." self)
    else
      let self := set_rounds (rounds self + 1)%Z self in
      cur <- subscript (current self) ;;
      let correct := String.eqb sel (answer cur) in
      let self := if correct then set_score (score self + 1)%Z self else self in
      let self := set_answered true self in
      let text := feedback_text cur correct in
      let self := msg_set text self in
      Ok (update_score self).

Definition on_next (r : nat) (self : GamePage) : result GamePage :=
  new_round r self.

(** Clicking the [i]-th radio button stores its value, the [i]-th entry of
    [CHOICES], in [choice_var]; there is no button beyond the list. *)
Definition select_choice (i : nat) (self : GamePage) : GamePage :=
  match nth_error CHOICES i with
  | Some c => set_choice_var c self
  | None => self
  end.

(** [GamePage.__init__]: the fields are initialised, the widgets built, and
    the first round started. *)
Definition GamePage_init (r : nat) : result GamePage :=
  let self := mkGamePage World_default make_scenarios None 0%Z 0%Z false
                (mkCanvas 720 680 []) "" "" "Score: 0/0" [] in
  new_round r self.

(** The calls that reach a game page after its construction. *)
Inductive call : Set :=
| NewRound (r : nat)
| Submit
| Next (r : nat)
| Select (i : nat).

Definition step (c : call) (g : GamePage) : result GamePage :=
  match c with
  | NewRound r => new_round r g
  | Submit => on_submit g
  | Next r => on_next r g
  | Select i => Ok (select_choice i g)
  end.

(** The page after each call of a sequence, oldest first; a raised
    exception ends the trace. *)
Fixpoint trace (cs : list call) (g : GamePage) : result (list GamePage) :=
  match cs with
  | [] => Ok []
  | c :: cs' => g' <- step c g ;; gs <- trace cs' g' ;; Ok (g' :: gs)
  end.

(** Pages reachable from a freshly opened game screen. *)
Inductive reachable : GamePage -> Prop :=
| reach_init r g : GamePage_init r = Ok g -> reachable g
| reach_step c g g' : reachable g -> step c g = Ok g' -> reachable g'.

(** ** Notions used in the statements *)

(** [needle] occurs in [hay]. *)
Definition contains (hay needle : string) : Prop :=
  exists pre post, hay = String.append pre (String.append needle post).

(** The point of polar coordinates ([r], [th]) around [center]. *)
Definition polar (center : point) (r th : R) : point :=
  (fst center + r * cos th, snd center + r * sin th).

Definition dist (p q : point) : R :=
  sqrt ((fst q - fst p) * (fst q - fst p) + (snd q - snd p) * (snd q - snd p)).

(** The interpolation parameter of sample [i] out of [npts]. *)
Definition param (npts : Z) (i : Z) : R := IZR i / IZR (npts - 1).

(** The signed angle a spiral sweeps. *)
Definition swept (turns : R) (ccw : bool) : R :=
  if ccw then turns * (2 * PI) else - (turns * (2 * PI)).

(** The effective end angle of an arc. *)
Definition arc_end (angle_start angle_end : R) (ccw : bool) : R :=
  if ccw then angle_end else angle_start - (angle_end - angle_start).

(** Test inputs: the proton entry of the catalogue, and a page in the middle
    of a round on that scenario with a given selection and [answered] flag. *)
Definition proton_scenario : Scenario :=
  mkScenario
    "proton (p)"
    "Left gentle arc with heavy dE/dx (thick) → slow heavy positive → proton."
    (mkTags "+" "gentle" "thick" None)
    draw_proton.

Definition muplus_scenario : Scenario :=
  mkScenario
    "muon (μ+)"
    "Long gentle left arc; thin ionization → high-p positive MIP → μ⁺."
    (mkTags "+" "gentle" "thin" None)
    draw_muplus.

Definition page_on (cur : Scenario) (sel : string) (ans : bool) : GamePage :=
  mkGamePage World_default make_scenarios (Some cur) 0%Z 0%Z ans
    (mkCanvas 720 680 []) sel "" "Score: 0/0" [].

(** What every page of a running game screen satisfies. *)
Record Inv (g : GamePage) : Prop := mkInv {
  inv_world : world g = World_default;
  inv_scenarios : scenarios g = make_scenarios;
  inv_current : exists s, current g = Some s /\ In s make_scenarios;
  inv_score : (0 <= score g <= rounds g)%Z;
  inv_choice : answered g = true -> choice_var g <> ""
}.

(** Neither counter decreases from [g] to [g']. *)
Definition counters_le (g g' : GamePage) : Prop :=
  (score g <= score g')%Z /\ (rounds g <= rounds g')%Z.

(** ** Help dialog *)

Definition HELP : string :=
  String.concat nl
    [ "Goal: Look at the cloud-chamber sketch and choose the particle.";
      "";
      "Magnetic field: into the page (⊗). Initial motion is upward (↑).";
      "• Curve LEFT ⇒ positive charge (e.g., e⁺, μ⁺, p).";
      "• Curve RIGHT ⇒ negative charge (e.g., e⁻, μ⁻).";
      "• Tight curve/spiral ⇒ low momentum. Gentle arc ⇒ high momentum.";
      "• Track thickness (ionization):";
      "    thin   ≈ light/fast (electrons/muons)";
      "    thick  ≈ slow/heavy (proton)";
      "";
      "• No incoming primary but a displaced 'V' pair (two opposite-curving arms)";
      "  ⇒ neutral converting/decaying:";
      "    - photon conversion: e⁺e⁻ pair, faint and opposite curvature";
      "";
      "Tips: Don’t overthink momentum — relative tight vs gentle is enough!" ].

Definition show_help (self : GamePage) : GamePage :=
  showinfo "How to read the clues" HELP self.

(** ** The clues page *)

Record CluesPage : Type := mkCluesPage {
  clues_world : World;
  clues_scenarios : list Scenario;
  clues_canvas : Canvas;
  help_txt : string;
  clue_lbl : string
}.

Definition clues_set_canvas (v : Canvas) (p : CluesPage) : CluesPage :=
  mkCluesPage (clues_world p) (clues_scenarios p) v (help_txt p) (clue_lbl p).
Definition clues_set_clue_lbl (v : string) (p : CluesPage) : CluesPage :=
  mkCluesPage (clues_world p) (clues_scenarios p) (clues_canvas p) (help_txt p) v.

(** [CluesPage.draw_background] *)
Definition clues_draw_background (self : CluesPage) : result CluesPage :=
  let cv := delete_all (clues_canvas self) in
  cv <- draw_Bfield cv (clues_world self) ;;
  cv <- draw_axes cv (clues_world self) ;;
  (* initial upward stub centered (midpage) *)
  let w := IZR (cv_width cv) in
  let h := IZR (cv_height cv) in
  '(x0, y0) <- to_canvas (clues_world self) 0.0 (-0.5) w h ;;
  '(x1, y1) <- to_canvas (clues_world self) 0.0 0.5 w h ;;
  let cv := add_item (create_line [x0; y0; x1; y1] 3 false None None None) cv in
  let cv := add_item (create_text (x1 + 8) (y1 - 10) "↑" None (Some ("TkDefaultFont", 12%Z, "bold"))) cv in
  Ok (clues_set_canvas cv self).

Definition show_example (r : nat) (self : CluesPage) : result CluesPage :=
  self <- clues_draw_background self ;;
  s <- random_choice r (clues_scenarios self) ;;
  cv <- draw s (clues_canvas self) (clues_world self) ;;
  let self := clues_set_canvas cv self in
  let tags := tags s in
  let tag_bits := tag_bits_of tags in
  Ok (clues_set_clue_lbl (String.append "Clues: " (String.concat ", " tag_bits)) self).

(** [CluesPage.__init__] *)
Definition CluesPage_init : result CluesPage :=
  let self := mkCluesPage World_default make_scenarios (mkCanvas 700 600 []) HELP "" in
  clues_draw_background self.

(** ** The application shell *)

(** The page mounted in the window.  The title page holds no state. *)
Inductive frame : Type :=
| TitlePage
| Clues (p : CluesPage)
| Game (g : GamePage).

(** [_frame] is the mounted page, [destroyed] the pages destroyed so far,
    oldest first, and [running] is false once [quit] has ended the main
    loop. *)
Record CloudChamberApp : Type := mkApp {
  _frame : option frame;
  destroyed : list frame;
  running : bool
}.

Definition _swap (new_frame : frame) (self : CloudChamberApp) : CloudChamberApp :=
  let self :=
    match _frame self with
    | Some old => mkApp (_frame self) (destroyed self ++ [old]) (running self)
    | None => self
    end in
  mkApp (Some new_frame) (destroyed self) (running self).

Definition show_title (self : CloudChamberApp) : result CloudChamberApp :=
  Ok (_swap TitlePage self).

Definition show_clues (self : CloudChamberApp) : result CloudChamberApp :=
  p <- CluesPage_init ;; Ok (_swap (Clues p) self).

Definition show_game (r : nat) (self : CloudChamberApp) : result CloudChamberApp :=
  g <- GamePage_init r ;; Ok (_swap (Game g) self).

(** [CloudChamberApp.__init__] *)
Definition CloudChamberApp_init : result CloudChamberApp :=
  show_title (mkApp None [] true).

(** The buttons of the three pages, with the number the random source draws
    where a handler uses it.  A page's buttons exist only while that page is
    mounted, and nothing is dispatched once the main loop has ended. *)
Inductive action : Set :=
| Play (r : nat)
| ReadClues
| Quit
| Back
| ShowExample (r : nat)
| OnGame (c : call)
| Help
| QuitToTitle.

Definition set_frame (f : frame) (self : CloudChamberApp) : CloudChamberApp :=
  mkApp (Some f) (destroyed self) (running self).

Definition app_step (self : CloudChamberApp) (a : action) : result CloudChamberApp :=
  if negb (running self) then Ok self
  else
    match _frame self, a with
    | Some TitlePage, Play r => show_game r self
    | Some TitlePage, ReadClues => show_clues self
    | Some TitlePage, Quit => Ok (mkApp (_frame self) (destroyed self) false)
    | Some (Clues p), Back => show_title self
    | Some (Clues p), ShowExample r =>
        p' <- show_example r p ;; Ok (set_frame (Clues p') self)
    | Some (Game g), OnGame c =>
        g' <- step c g ;; Ok (set_frame (Game g') self)
    | Some (Game g), Help => Ok (set_frame (Game (show_help g)) self)
    | Some (Game g), QuitToTitle => show_title self
    | _, _ => Ok self
    end.

Definition app_run (acts : list action) (self : CloudChamberApp)
  : result CloudChamberApp :=
  foldM app_step self acts.

(** ** Further notions used in the statements *)


(** [P] holds on the page of a freshly opened game screen and on the page
    left by every later call, whatever the random source draws. *)
Definition always (P : GamePage -> Prop) : Prop :=
  forall (r : nat) (cs : list call),
  exists g0 gs,
    GamePage_init r = Ok g0 /\ trace cs g0 = Ok gs /\ Forall P (g0 :: gs).




(** A world point inside the viewport; a pixel inside the margin-inset
    rectangle of a [width] x [height] canvas. *)
Definition in_viewport (w : World) (p : point) : Prop :=
  xmin w <= fst p <= xmax w /\ ymin w <= snd p <= ymax w.

Definition in_inset (w : World) (width height X Y : R) : Prop :=
  margin w <= X <= width - margin w /\ margin w <= Y <= height - margin w.

(** All the (X, Y) pairs of a flat coordinate list are inside the inset
    rectangle. *)
Fixpoint coords_in_inset (w : World) (width height : R) (xy : list R) : Prop :=
  match xy with
  | [] => True
  | X :: Y :: xy' => in_inset w width height X Y /\ coords_in_inset w width height xy'
  | _ => False
  end.

(** An item drawn wholly inside the inset rectangle of its canvas. *)
Definition item_in_inset (w : World) (cv : Canvas) (it : item) : Prop :=
  let width := IZR (cv_width cv) in
  let height := IZR (cv_height cv) in
  match it with
  | create_line xy _ _ _ _ _ => coords_in_inset w width height xy
  | create_polygon xy _ => coords_in_inset w width height xy
  | create_text x y _ _ _ => in_inset w width height x y
  | create_oval x0 y0 x1 y1 _ _ _ =>
      in_inset w width height x0 y0 /\ in_inset w width height x1 y1
  end.

(** The text a new round puts in the feedback widget. *)
Definition ROUND_PROMPT : string :=
  "Pick the particle based on curvature (sign), radius (momentum), and line width (dE/dx).".


(** The text of the score label for the counters of a page. *)
Definition score_text (g : GamePage) : string :=
  String.concat "" ["Score: "; str_of_int (score g); "/"; str_of_int (rounds g)].

(** The pixel [to_canvas] computes for a world point when it does not
    raise. *)
Definition pixel (w : World) (width height : R) (p : point) : R * R :=
  (margin w + (fst p - xmin w) / (xmax w - xmin w) * (width - 2 * margin w),
   margin w + (ymax w - snd p) / (ymax w - ymin w) * (height - 2 * margin w)).

(** The flat coordinate list of the pixels of a list of world points. *)
Definition pixels (w : World) (width height : R) (pts : list point) : list R :=
  flat_map (fun p => [fst (pixel w width height p); snd (pixel w width height p)]) pts.

(** The canvas of the page is the 720 x 680 canvas holding what
    [draw_background] leaves, 71 items, followed by what the draw routine of
    the current scenario adds to that, and nothing else. *)
Definition canvas_fresh (g : GamePage) : Prop :=
  cv_width (canvas g) = 720%Z /\ cv_height (canvas g) = 680%Z /\
  exists s bg,
    current g = Some s /\ length bg = 71%nat /\
    draw_background g = Ok (set_canvas (mkCanvas 720 680 bg) g) /\
    draw s (mkCanvas 720 680 bg) World_default = Ok (canvas g).

(** What every page of a running game screen satisfies, beyond [Inv]: the
    widgets agree with the quiz state. *)
Record Shown (g : GamePage) : Prop := mkShown {
  shown_inv : Inv g;
  shown_label : score_lbl g = score_text g;
  shown_msg :
    if answered g
    then exists s correct, current g = Some s /\ msg g = feedback_text s correct
    else msg g = ROUND_PROMPT;
  shown_choice : choice_var g = "" \/ In (choice_var g) CHOICES;
  shown_canvas : canvas_fresh g
}.


(** What every clues page satisfies. *)
Record CluesInv (p : CluesPage) : Prop := mkCluesInv {
  cinv_world : clues_world p = World_default;
  cinv_scenarios : clues_scenarios p = make_scenarios;
  cinv_width : cv_width (clues_canvas p) = 700%Z;
  cinv_height : cv_height (clues_canvas p) = 600%Z;
  cinv_help : help_txt p = HELP
}.

(** What the mounted page satisfies while the application runs. *)
Definition frame_ok (f : frame) : Prop :=
  match f with
  | TitlePage => True
  | Clues p => CluesInv p
  | Game g => Shown g
  end.

(** The clue line composed from the tags of a scenario. *)
Definition clue_line (s : Scenario) : string :=
  String.concat ", " (tag_bits_of (tags s)).

(** * Properties *)

(** ** The exception monad *)

Lemma truediv_ok (a b : R) : b <> 0 -> truediv a b = Ok (a / b).
Proof.
  intros Hb. unfold truediv. destruct (Req_dec_T b 0) as [E | _].
  - contradiction.
  - reflexivity.
Qed.

Lemma truediv_zero (a : R) : truediv a 0 = Raise ZeroDivisionError.
Proof.
  unfold truediv. destruct (Req_dec_T 0 0) as [_ | N].
  - reflexivity.
  - exfalso. apply N. reflexivity.
Qed.

Lemma mapM_ok {A B : Type} (f : A -> result B) (g : A -> B) (l : list A) :
  (forall a, In a l -> f a = Ok (g a)) -> mapM f l = Ok (map g l).
Proof.
  induction l as [| a l IH]; intros Hf; simpl.
  - reflexivity.
  - rewrite (Hf a (or_introl eq_refl)). simpl.
    rewrite IH by (intros b Hb; apply Hf; right; exact Hb).
    reflexivity.
Qed.

Lemma foldM_ok {A S : Type} (f : S -> A -> result S) (g : S -> A -> S)
    (l : list A) :
  (forall s a, In a l -> f s a = Ok (g s a)) ->
  forall s, foldM f s l = Ok (fold_left g l s).
Proof.
  induction l as [| a l IH]; intros Hf s; simpl.
  - reflexivity.
  - rewrite (Hf s a (or_introl eq_refl)). simpl.
    apply IH. intros s' b Hb. apply Hf. right. exact Hb.
Qed.

(** ** [range] *)

Lemma range_length (n : Z) : length (range n) = Z.to_nat n.
Proof. unfold range. rewrite length_map, length_seq. reflexivity. Qed.

Lemma range_nth (n : Z) (i : nat) :
  (i < Z.to_nat n)%nat -> nth_error (range n) i = Some (Z.of_nat i).
Proof.
  intros Hi. unfold range. rewrite nth_error_map.
  rewrite nth_error_seq. 
  destruct (Nat.ltb_spec i (Z.to_nat n)) as [_ | Hge]; [reflexivity | lia].
Qed.

Lemma range_In (n i : Z) : In i (range n) -> (0 <= i < n)%Z.
Proof.
  unfold range. rewrite in_map_iff. intros [k [<- Hk]].
  apply in_seq in Hk. lia.
Qed.

(** ** Coordinate mapper *)

Lemma to_canvas_ok (self : World) (x y width height : R) :
  xmax self - xmin self <> 0 -> ymax self - ymin self <> 0 ->
  to_canvas self x y width height =
    Ok (margin self + (x - xmin self) / (xmax self - xmin self) * (width - 2 * margin self),
        margin self + (ymax self - y) / (ymax self - ymin self) * (height - 2 * margin self)).
Proof.
  intros Hx Hy. unfold to_canvas.
  rewrite (truediv_ok _ _ Hx). simpl.
  rewrite (truediv_ok _ _ Hy). reflexivity.
Qed.

Lemma to_canvas_flat_x (self : World) (x y width height : R) :
  xmax self = xmin self ->
  to_canvas self x y width height = Raise ZeroDivisionError.
Proof.
  intros E. unfold to_canvas.
  replace (xmax self - xmin self) with 0 by lra.
  rewrite truediv_zero. reflexivity.
Qed.

Lemma to_canvas_default (x y width height : R) :
  to_canvas World_default x y width height =
    Ok (40 + (x - -10) / (10 - -10) * (width - 2 * 40),
        40 + (10 - y) / (10 - -10) * (height - 2 * 40)).
Proof. apply to_canvas_ok; simpl; lra. Qed.

(** C5. With [xmin < xmax] and [ymin < ymax], for any margin and canvas size,
    [to_canvas] never raises and is affine: pixel X is [a*x + b] and pixel Y
    is [c*y + d] with coefficients that depend on the world and the canvas
    only.  The four corners of the viewport go to the four corners of the
    margin-inset pixel rectangle, (xmin, ymax) to (margin, margin) and
    (xmax, ymin) to (width - margin, height - margin).  Pixel Y is
    margin + (ymax - y)/(ymax - ymin) * (height - 2*margin): its slope in y is
    the negated inner height per world height, so with a positive inner
    height a larger world y gives a smaller pixel Y. *)
Theorem to_canvas_affine (self : World) (width height : R) :
  xmin self < xmax self -> ymin self < ymax self ->
  let W := width - 2 * margin self in
  let H := height - 2 * margin self in
  (exists a b c d : R,
      c = - (H / (ymax self - ymin self)) /\
      forall x y, to_canvas self x y width height = Ok (a * x + b, c * y + d)) /\
  to_canvas self (xmin self) (ymax self) width height
    = Ok (margin self, margin self) /\
  to_canvas self (xmax self) (ymin self) width height
    = Ok (width - margin self, height - margin self) /\
  to_canvas self (xmin self) (ymin self) width height
    = Ok (margin self, height - margin self) /\
  to_canvas self (xmax self) (ymax self) width height
    = Ok (width - margin self, margin self) /\
  (forall x y, exists X,
      to_canvas self x y width height
        = Ok (X, margin self + (ymax self - y) / (ymax self - ymin self) * H)) /\
  (0 < H -> forall x1 x2 y1 y2 p1 p2,
      y1 < y2 ->
      to_canvas self x1 y1 width height = Ok p1 ->
      to_canvas self x2 y2 width height = Ok p2 ->
      snd p2 < snd p1).
Proof.
  intros Hx Hy W H.
  assert (Dx : xmax self - xmin self <> 0) by lra.
  assert (Dy : ymax self - ymin self <> 0) by lra.
  repeat split.
  - exists (W / (xmax self - xmin self)),
           (margin self - xmin self * W / (xmax self - xmin self)),
           (- (H / (ymax self - ymin self))),
           (margin self + ymax self * H / (ymax self - ymin self)).
    split; [reflexivity |].
    intros x y. rewrite (to_canvas_ok _ _ _ _ _ Dx Dy).
    f_equal. f_equal; unfold W, H; field; assumption.
  - rewrite (to_canvas_ok _ _ _ _ _ Dx Dy). f_equal. f_equal; field; assumption.
  - rewrite (to_canvas_ok _ _ _ _ _ Dx Dy). f_equal. f_equal; field; assumption.
  - rewrite (to_canvas_ok _ _ _ _ _ Dx Dy). f_equal. f_equal; field; assumption.
  - rewrite (to_canvas_ok _ _ _ _ _ Dx Dy). f_equal. f_equal; field; assumption.
  - intros x y. rewrite (to_canvas_ok _ _ _ _ _ Dx Dy). eexists. reflexivity.
  - intros HH x1 x2 y1 y2 p1 p2 Hlt E1 E2.
    rewrite (to_canvas_ok _ _ _ _ _ Dx Dy) in E1.
    rewrite (to_canvas_ok _ _ _ _ _ Dx Dy) in E2.
    injection E1 as <-. injection E2 as <-. simpl.
    apply Rplus_lt_compat_l. apply Rmult_lt_compat_r; [exact HH |].
    apply Rmult_lt_compat_r; [apply Rinv_0_lt_compat; lra | lra].
Qed.

Lemma to_canvas_affine_witness :
  xmin World_default < xmax World_default /\
  ymin World_default < ymax World_default /\
  to_canvas World_default (xmin World_default) (ymax World_default) 720 680
    = Ok (margin World_default, margin World_default) /\
  to_canvas World_default (xmax World_default) (ymin World_default) 720 680
    = Ok (720 - margin World_default, 680 - margin World_default).
Proof.
  assert (Hx : xmin World_default < xmax World_default) by (simpl; lra).
  assert (Hy : ymin World_default < ymax World_default) by (simpl; lra).
  split; [exact Hx |]. split; [exact Hy |].
  destruct (to_canvas_affine World_default 720 680 Hx Hy)
    as [_ [Htl [Hbr _]]].
  split; [exact Htl | exact Hbr].
Defined.

(** ** Curve generators *)

Lemma dist_polar (center : point) (r th : R) :
  dist center (polar center r th) = Rabs r.
Proof.
  unfold dist, polar. simpl.
  replace ((fst center + r * cos th - fst center) * (fst center + r * cos th - fst center) +
           (snd center + r * sin th - snd center) * (snd center + r * sin th - snd center))
    with (Rsqr r * (Rsqr (sin th) + Rsqr (cos th))) by (unfold Rsqr; ring).
  rewrite sin2_cos2, Rmult_1_r. apply sqrt_Rsqr_abs.
Qed.

Lemma dist_polar_nonneg (center : point) (r th : R) :
  0 <= r -> dist center (polar center r th) = r.
Proof. intros Hr. rewrite dist_polar. apply Rabs_right. lra. Qed.

(** A negative polar radius puts the point at distance [- r]. *)
Lemma dist_polar_neg (center : point) (r th : R) :
  r < 0 -> dist center (polar center r th) = - r.
Proof. intros Hr. rewrite dist_polar. apply Rabs_left. exact Hr. Qed.

Lemma polar_on_circle (center : point) (r th : R) :
  let p := polar center r th in
  (fst p - fst center) * (fst p - fst center) +
  (snd p - snd center) * (snd p - snd center) = r * r.
Proof.
  unfold polar. simpl.
  replace ((fst center + r * cos th - fst center) * (fst center + r * cos th - fst center) +
           (snd center + r * sin th - snd center) * (snd center + r * sin th - snd center))
    with (Rsqr r * (Rsqr (sin th) + Rsqr (cos th))) by (unfold Rsqr; ring).
  rewrite sin2_cos2. unfold Rsqr. ring.
Qed.

Lemma param_first (npts : Z) : param npts 0 = 0.
Proof. unfold param. unfold Rdiv. apply Rmult_0_l. Qed.

Lemma param_last (npts : Z) : (2 <= npts)%Z -> param npts (npts - 1) = 1.
Proof.
  intros Hn. unfold param. apply Rdiv_diag.
  apply not_0_IZR. lia.
Qed.

Lemma spiral_closed_form (center : point) (r_start r_end turns : R)
    (ccw : bool) (npts : Z) (start_angle : R) :
  (npts <> 1)%Z ->
  spiral center r_start r_end turns ccw npts start_angle =
    Ok (map (fun i => polar center
                        (r_start + param npts i * (r_end - r_start))
                        (start_angle + param npts i * swept turns ccw))
            (range npts)).
Proof.
  intros Hn. destruct center as [cx cy]. unfold spiral.
  apply mapM_ok. intros i Hi. apply range_In in Hi.
  rewrite truediv_ok by (apply not_0_IZR; lia). simpl.
  unfold polar, param, swept. simpl. destruct ccw.
  - replace (start_angle + 2 * PI * turns - start_angle)
      with (turns * (2 * PI)) by ring.
    reflexivity.
  - replace (start_angle + -2 * PI * turns - start_angle)
      with (- (turns * (2 * PI))) by ring.
    reflexivity.
Qed.

Lemma spiral_single_sample (center : point) (r_start r_end turns : R)
    (ccw : bool) (start_angle : R) :
  spiral center r_start r_end turns ccw 1 start_angle = Raise ZeroDivisionError.
Proof.
  destruct center as [cx cy]. unfold spiral. simpl.
  rewrite truediv_zero. reflexivity.
Qed.

Lemma arc_closed_form (center : point) (radius angle_start angle_end : R)
    (ccw : bool) (npts : Z) :
  (npts <> 1)%Z ->
  arc center radius angle_start angle_end ccw npts =
    Ok (map (fun i => polar center radius
                        (angle_start + param npts i *
                           (arc_end angle_start angle_end ccw - angle_start)))
            (range npts)).
Proof.
  intros Hn. destruct center as [cx cy]. unfold arc.
  apply mapM_ok. intros i Hi. apply range_In in Hi.
  rewrite truediv_ok by (apply not_0_IZR; lia). reflexivity.
Qed.

Lemma arc_single_sample (center : point) (radius angle_start angle_end : R)
    (ccw : bool) :
  arc center radius angle_start angle_end ccw 1 = Raise ZeroDivisionError.
Proof.
  destruct center as [cx cy]. unfold arc. simpl.
  rewrite truediv_zero. reflexivity.
Qed.

Lemma nth_error_map_range {B : Type} (f : Z -> B) (npts : Z) (i : nat) :
  (i < Z.to_nat npts)%nat ->
  nth_error (map f (range npts)) i = Some (f (Z.of_nat i)).
Proof.
  intros Hi. rewrite nth_error_map, (range_nth _ _ Hi). reflexivity.
Qed.

(** C6. With at least two samples the spiral generator returns (it does not
    raise) exactly [npts] points.  Sample [i] is the point of polar
    coordinates (radius, angle) around the center obtained by interpolating
    linearly, with parameter i/(npts-1), the radius from [r_start] to [r_end]
    and the angle from [start_angle] to [start_angle + swept], where the
    swept angle is turns*2*pi counterclockwise and -(turns*2*pi) clockwise.
    So the first point has polar radius [r_start] and the last one polar
    radius [r_end] at the fully swept angle; their distances to the center
    are the absolute values of these radii, hence the radii themselves when
    these are non-negative. *)
Theorem spiral_endpoints (center : point) (r_start r_end turns : R)
    (ccw : bool) (npts : Z) (start_angle : R) :
  (2 <= npts)%Z ->
  exists pts first last,
    spiral center r_start r_end turns ccw npts start_angle = Ok pts /\
    length pts = Z.to_nat npts /\
    nth_error pts 0 = Some first /\
    nth_error pts (Z.to_nat npts - 1) = Some last /\
    first = polar center r_start start_angle /\
    last = polar center r_end (start_angle + swept turns ccw) /\
    swept turns ccw = (if ccw then turns * (2 * PI) else - (turns * (2 * PI))) /\
    (forall i, (i < Z.to_nat npts)%nat ->
       nth_error pts i =
         Some (polar center
                 (r_start + param npts (Z.of_nat i) * (r_end - r_start))
                 (start_angle + param npts (Z.of_nat i) * swept turns ccw))) /\
    dist center first = Rabs r_start /\
    dist center last = Rabs r_end /\
    (0 <= r_start -> dist center first = r_start) /\
    (0 <= r_end -> dist center last = r_end).
Proof.
  intros Hn.
  exists (map (fun i => polar center
                          (r_start + param npts i * (r_end - r_start))
                          (start_angle + param npts i * swept turns ccw))
              (range npts)),
         (polar center r_start start_angle),
         (polar center r_end (start_angle + swept turns ccw)).
  split; [apply spiral_closed_form; lia |].
  split; [rewrite length_map; apply range_length |].
  split.
  { rewrite nth_error_map_range by lia. simpl.
    rewrite param_first. f_equal. f_equal; ring. }
  split.
  { rewrite nth_error_map_range by lia.
    replace (Z.of_nat (Z.to_nat npts - 1)) with (npts - 1)%Z by lia.
    rewrite (param_last _ Hn). f_equal. f_equal; ring. }
  split; [reflexivity |]. split; [reflexivity |]. split; [reflexivity |].
  split; [intros i Hi; apply nth_error_map_range; exact Hi |].
  split; [apply dist_polar |]. split; [apply dist_polar |].
  split; apply dist_polar_nonneg.
Qed.

Lemma spiral_endpoints_witness :
  (2 <= 500)%Z /\
  exists pts, spiral (-3, 0) 3 0.6 3.2 true 500 0 = Ok pts /\
              length pts = 500%nat.
Proof.
  assert (Hn : (2 <= 500)%Z) by lia.
  split; [exact Hn |].
  destruct (spiral_endpoints (-3, 0) 3 0.6 3.2 true 500 0 Hn)
    as [pts [first [last [Hs [Hl _]]]]].
  exists pts. split; [exact Hs | exact Hl].
Defined.

(** C7. With at least two samples the arc generator returns (it does not
    raise) exactly [npts] points, all on the circle of the given radius
    around the given center: their distance to the center is the absolute
    value of the radius, hence the radius itself when it is non-negative.
    The points are equally spaced in angle: sample [i] sits at angle
    [angle_start + i * delta] for a constant step [delta], the first one at
    [angle_start] and the last one at the effective end angle, which is
    [angle_end] counterclockwise and
    [angle_start - (angle_end - angle_start)] clockwise. *)
Theorem arc_on_circle (center : point) (radius angle_start angle_end : R)
    (ccw : bool) (npts : Z) :
  (2 <= npts)%Z ->
  exists pts,
    arc center radius angle_start angle_end ccw npts = Ok pts /\
    length pts = Z.to_nat npts /\
    (forall p, In p pts ->
       (fst p - fst center) * (fst p - fst center) +
       (snd p - snd center) * (snd p - snd center) = radius * radius /\
       dist center p = Rabs radius /\
       (0 <= radius -> dist center p = radius)) /\
    arc_end angle_start angle_end ccw =
      (if ccw then angle_end else angle_start - (angle_end - angle_start)) /\
    (let delta := (arc_end angle_start angle_end ccw - angle_start) / IZR (npts - 1) in
     forall i, (i < Z.to_nat npts)%nat ->
       nth_error pts i =
         Some (polar center radius (angle_start + IZR (Z.of_nat i) * delta))) /\
    nth_error pts 0 = Some (polar center radius angle_start) /\
    nth_error pts (Z.to_nat npts - 1) =
      Some (polar center radius (arc_end angle_start angle_end ccw)).
Proof.
  intros Hn.
  exists (map (fun i => polar center radius
                          (angle_start + param npts i *
                             (arc_end angle_start angle_end ccw - angle_start)))
              (range npts)).
  split; [apply arc_closed_form; lia |].
  split; [rewrite length_map; apply range_length |].
  split.
  { intros p Hp. apply in_map_iff in Hp. destruct Hp as [i [<- _]].
    split; [apply polar_on_circle |].
    split; [apply dist_polar | apply dist_polar_nonneg]. }
  split; [reflexivity |].
  split.
  { intros delta i Hi. rewrite nth_error_map_range by exact Hi.
    f_equal. f_equal. unfold delta, param. f_equal.
    field. apply not_0_IZR. lia. }
  split.
  { rewrite nth_error_map_range by lia. simpl.
    rewrite param_first. f_equal. f_equal. ring. }
  rewrite nth_error_map_range by lia.
  replace (Z.of_nat (Z.to_nat npts - 1)) with (npts - 1)%Z by lia.
  rewrite (param_last _ Hn). f_equal. f_equal. ring.
Qed.

Lemma arc_on_circle_witness :
  (2 <= 160)%Z /\
  exists pts, arc (-20, 0) 20 0 0.5 true 160 = Ok pts /\
              length pts = 160%nat.
Proof.
  assert (Hn : (2 <= 160)%Z) by lia.
  split; [exact Hn |].
  destruct (arc_on_circle (-20, 0) 20 0 0.5 true 160 Hn) as [pts [Ha [Hl _]]].
  exists pts. split; [exact Ha | exact Hl].
Defined.


(** ** Scenario catalogue *)

Lemma answers_of_catalogue :
  map answer make_scenarios =
    [ "positron (e+)"; "electron (e−)"; "muon (μ−)"; "muon (μ+)";
      "proton (p)"; "photon (γ) → e⁺e⁻ pair";
      "neutron (n) (no visible primary track)" ].
Proof. unfold make_scenarios. cbn [app map answer]. reflexivity. Qed.

(** Choose the disjunct at a given position of a disjunction of equations. *)
Ltac disjunct n :=
  match n with
  | O => (left; reflexivity) || reflexivity
  | S ?k => right; disjunct k
  end.

Lemma In_catalogue (s : Scenario) :
  In s make_scenarios ->
  (draw s = draw_eplus \/ draw s = draw_eminus \/ draw s = draw_muminus \/
   draw s = draw_muplus \/ draw s = draw_proton \/ draw s = draw_gamma_pair \/
   draw s = draw_neutron) /\
  In (answer s) CHOICES.
Proof.
  unfold make_scenarios, CHOICES. cbn [app In].
  intros [<- | [<- | [<- | [<- | [<- | [<- | [<- | []]]]]]]]; cbn [draw answer].
  - split; [disjunct 0%nat | disjunct 1%nat].
  - split; [disjunct 1%nat | disjunct 0%nat].
  - split; [disjunct 2%nat | disjunct 2%nat].
  - split; [disjunct 3%nat | disjunct 3%nat].
  - split; [disjunct 4%nat | disjunct 5%nat].
  - split; [disjunct 5%nat | disjunct 4%nat].
  - split; [disjunct 6%nat | disjunct 6%nat].
Qed.

(** C4. The catalogue has exactly 7 scenarios, their answer labels are
    pairwise distinct, and a string is the answer label of a scenario exactly
    when it is one of the 7 quiz choices (the catalogue lists them in another
    order than the choices). *)
Theorem make_scenarios_answers :
  length make_scenarios = 7%nat /\
  NoDup (map answer make_scenarios) /\
  length CHOICES = 7%nat /\
  (forall c : string, In c (map answer make_scenarios) <-> In c CHOICES) /\
  CHOICES =
    [ "electron (e−)"; "positron (e+)"; "muon (μ−)"; "muon (μ+)";
      "photon (γ) → e⁺e⁻ pair"; "proton (p)";
      "neutron (n) (no visible primary track)" ].
Proof.
  split; [unfold make_scenarios; cbn [app length]; reflexivity |].
  split.
  { rewrite answers_of_catalogue.
    repeat (constructor; [cbn [In]; intuition discriminate |]).
    constructor. }
  split; [reflexivity |].
  split; [| reflexivity].
  intros c. rewrite answers_of_catalogue. unfold CHOICES. cbn [In]. tauto.
Qed.

(** C8. The μ+ and the proton draw routines sample the same arc: center
    (-20, 0), radius 20, from angle 0 to 0.5 counterclockwise, 160 samples,
    which the generator returns as 160 points.  Each routine passes these
    points to [polyline], the μ+ one with the thin width 2 and the proton
    one with the thick width 5, and nothing else differs: on every canvas
    and world either both raise the same exception or both add one line item
    with the same pixel coordinates, the same options, and widths 2 and 5. *)
Theorem proton_muplus_same_track :
  exists pts : list point,
    arc (-20, 0) 20 0 0.5 true 160 = Ok pts /\
    length pts = 160%nat /\
    (forall canvas world,
        draw_muplus canvas world = polyline canvas pts world THIN None TRACK_COLOR) /\
    (forall canvas world,
        draw_proton canvas world = polyline canvas pts world THICK None TRACK_COLOR) /\
    THIN = 2%Z /\ THICK = 5%Z /\
    (forall canvas world,
        match draw_muplus canvas world, draw_proton canvas world with
        | Ok c1, Ok c2 =>
            exists xy,
              c1 = add_item (create_line xy 2 true (Some 24%Z) None (Some TRACK_COLOR)) canvas /\
              c2 = add_item (create_line xy 5 true (Some 24%Z) None (Some TRACK_COLOR)) canvas
        | Raise e1, Raise e2 => e1 = e2
        | _, _ => False
        end).
Proof.
  assert (Harc : exists pts, arc (-20, 0) 20 0 0.5 true 160 = Ok pts /\
                             length pts = 160%nat).
  { eexists. split; [apply arc_closed_form; lia |].
    rewrite length_map. apply range_length. }
  destruct Harc as [pts [Harc Hlen]].
  assert (Harc' : arc (Ropp 20.0, y0) 20.0 0.0 0.5 true 160 = Ok pts).
  { unfold y0. replace (Ropp 20.0) with (-20) by lra.
    replace 20.0 with 20 by lra. replace 0.0 with 0 by lra.
    exact Harc. }
  assert (Hmu : forall canvas world,
             draw_muplus canvas world = polyline canvas pts world THIN None TRACK_COLOR).
  { intros canvas world. unfold draw_muplus. cbv zeta. rewrite Harc'. reflexivity. }
  assert (Hp : forall canvas world,
             draw_proton canvas world = polyline canvas pts world THICK None TRACK_COLOR).
  { intros canvas world. unfold draw_proton. cbv zeta. rewrite Harc'. reflexivity. }
  exists pts.
  split; [exact Harc |]. split; [exact Hlen |].
  split; [exact Hmu |]. split; [exact Hp |].
  split; [reflexivity |]. split; [reflexivity |].
  intros canvas world. rewrite Hmu, Hp. unfold polyline.
  match goal with
  | |- context [foldM ?f ?s pts] => destruct (foldM f s pts) as [xy | e]
  end; cbn [bind].
  - exists xy. split; reflexivity.
  - reflexivity.
Qed.

(** C9. The neutron draw routine returns the canvas it was given: it creates
    no item, so no track point is drawn, whatever the canvas and the world;
    on an empty canvas the display list stays empty.  It is the draw routine
    of every catalogue entry whose answer is the neutron label. *)
Theorem draw_neutron_draws_nothing :
  (forall canvas world, draw_neutron canvas world = Ok canvas) /\
  (forall w h world, draw_neutron (mkCanvas w h []) world = Ok (mkCanvas w h [])) /\
  (forall s, In s make_scenarios ->
     answer s = "neutron (n) (no visible primary track)" ->
     forall canvas world, draw s canvas world = Ok canvas).
Proof.
  split; [reflexivity |]. split; [reflexivity |].
  unfold make_scenarios. cbn [app In].
  intros s [<- | [<- | [<- | [<- | [<- | [<- | [<- | []]]]]]]]; cbn [draw answer];
    intros E canvas world; try discriminate E.
  reflexivity.
Qed.

(** ** Drawing on the default world never raises *)

Lemma foldM_total {A S : Type} (f : S -> A -> result S) (l : list A) :
  (forall s a, In a l -> exists s', f s a = Ok s') ->
  forall s, exists s', foldM f s l = Ok s'.
Proof.
  induction l as [| a l IH]; intros Hf s; simpl.
  - exists s. reflexivity.
  - destruct (Hf s a (or_introl eq_refl)) as [s1 E]. rewrite E. simpl.
    apply IH. intros s' b Hb. apply Hf. right. exact Hb.
Qed.

Lemma polyline_default (cv : Canvas) (pts : list point) (width : Z)
    (dash : option (list Z)) (fill : string) :
  exists xy,
    polyline cv pts World_default width dash fill =
      Ok (add_item (create_line xy width true (Some 24%Z) dash (Some fill)) cv).
Proof.
  unfold polyline. cbv zeta.
  match goal with
  | |- context [foldM ?f ?acc pts] =>
      assert (Hxy : exists xy, foldM f acc pts = Ok xy);
      [apply foldM_total | destruct Hxy as [xy E]]
  end.
  - intros xy [x y] _. rewrite to_canvas_default. cbn [bind]. eexists. reflexivity.
  - rewrite E. cbn [bind]. exists xy. reflexivity.
Qed.

Lemma polyline_default_total (cv : Canvas) (pts : list point) (width : Z)
    (dash : option (list Z)) (fill : string) :
  exists cv', polyline cv pts World_default width dash fill = Ok cv'.
Proof.
  destruct (polyline_default cv pts width dash fill) as [xy E].
  rewrite E. eexists. reflexivity.
Qed.

Lemma draw_catalogue_default (s : Scenario) (cv : Canvas) :
  In s make_scenarios -> exists cv', draw s cv World_default = Ok cv'.
Proof.
  intros Hs. destruct (In_catalogue s Hs) as [Hd _].
  destruct Hd as [E | [E | [E | [E | [E | [E | E]]]]]]; rewrite E; clear E.
  - unfold draw_eplus. cbv zeta.
    rewrite spiral_closed_form by (unfold spiral_npts; lia). cbn [bind].
    apply polyline_default_total.
  - unfold draw_eminus. cbv zeta.
    rewrite spiral_closed_form by (unfold spiral_npts; lia). cbn [bind].
    apply polyline_default_total.
  - unfold draw_muminus. cbv zeta.
    rewrite arc_closed_form by lia. cbn [bind].
    apply polyline_default_total.
  - unfold draw_muplus. cbv zeta.
    rewrite arc_closed_form by lia. cbn [bind].
    apply polyline_default_total.
  - unfold draw_proton. cbv zeta.
    rewrite arc_closed_form by lia. cbn [bind].
    apply polyline_default_total.
  - unfold draw_gamma_pair. cbv zeta.
    rewrite arc_closed_form by lia. cbn [bind].
    match goal with
    | |- context [polyline cv ?pts World_default THIN None TRACK_COLOR] =>
        destruct (polyline_default_total cv pts THIN None TRACK_COLOR) as [cv1 E1]
    end.
    rewrite E1. cbn [bind].
    rewrite arc_closed_form by lia. cbn [bind].
    match goal with
    | |- context [polyline cv1 ?pts World_default THIN None TRACK_COLOR] =>
        destruct (polyline_default_total cv1 pts THIN None TRACK_COLOR) as [cv2 E2]
    end.
    rewrite E2. cbn [bind].
    rewrite to_canvas_default. cbn [bind]. eexists. reflexivity.
  - unfold draw_neutron. exists cv. reflexivity.
Qed.

Lemma draw_Bfield_default (cv : Canvas) :
  exists cv', draw_Bfield cv World_default = Ok cv'.
Proof.
  unfold draw_Bfield. cbv zeta.
  match goal with
  | |- context [foldM ?f cv ?ys] =>
      assert (H : exists cv1, foldM f cv ys = Ok cv1)
  end.
  { apply foldM_total. intros c y _.
    apply foldM_total. intros c' x _.
    rewrite to_canvas_default. cbn [bind]. eexists. reflexivity. }
  destruct H as [cv1 E]. rewrite E. cbn [bind]. eexists. reflexivity.
Qed.

Lemma draw_axes_default (cv : Canvas) :
  exists cv', draw_axes cv World_default = Ok cv'.
Proof.
  unfold draw_axes. cbv zeta.
  repeat (rewrite to_canvas_default; cbn [bind]).
  eexists. reflexivity.
Qed.

Lemma draw_background_default (g : GamePage) :
  world g = World_default ->
  exists cv, draw_background g = Ok (set_canvas cv g).
Proof.
  intros Hw. unfold draw_background. cbv zeta. rewrite Hw.
  destruct (draw_Bfield_default (delete_all (canvas g))) as [cv1 E1].
  rewrite E1. cbn [bind].
  destruct (draw_axes_default cv1) as [cv2 E2].
  rewrite E2. cbn [bind].
  repeat (rewrite to_canvas_default; cbn [bind]).
  eexists. reflexivity.
Qed.

(** ** Random choice *)

Lemma random_choice_In {A : Type} (r : nat) (seq : list A) :
  seq <> [] -> exists a, random_choice r seq = Ok a /\ In a seq.
Proof.
  intros Hne. destruct seq as [| a0 seq']; [contradiction |].
  unfold random_choice.
  destruct (nth_error (a0 :: seq') (r mod length (a0 :: seq'))) as [a |] eqn:E.
  - exists a. split; [reflexivity |]. eapply nth_error_In. exact E.
  - apply nth_error_None in E.
    assert (r mod length (a0 :: seq') < length (a0 :: seq'))%nat
      by (apply Nat.mod_upper_bound; simpl; lia).
    lia.
Qed.

Lemma random_choice_empty {A : Type} (r : nat) :
  random_choice r (@nil A) = Raise IndexError.
Proof. reflexivity. Qed.

Lemma make_scenarios_nonempty : make_scenarios <> [].
Proof. unfold make_scenarios. cbn [app]. discriminate. Qed.

(** ** Rounds *)

Lemma new_round_ok (r : nat) (g : GamePage) :
  world g = World_default -> scenarios g = make_scenarios ->
  exists g' s,
    new_round r g = Ok g' /\
    In s make_scenarios /\
    current g' = Some s /\
    world g' = World_default /\
    scenarios g' = make_scenarios /\
    rounds g' = rounds g /\
    score g' = score g /\
    answered g' = false /\
    choice_var g' = "" /\
    dialogs g' = dialogs g.
Proof.
  intros Hw Hs. unfold new_round. cbv zeta.
  match goal with
  | |- context [draw_background ?g0] =>
      destruct (draw_background_default g0) as [cv E]; [exact Hw |]
  end.
  rewrite E. cbn [bind]. cbn [scenarios set_canvas msg_set set_choice_var set_answered].
  rewrite Hs.
  destruct (random_choice_In r make_scenarios make_scenarios_nonempty)
    as [s [Ec Hin]].
  rewrite Ec. cbn [bind].
  cbn [canvas world set_current set_canvas msg_set set_choice_var set_answered].
  rewrite Hw.
  destruct (draw_catalogue_default s cv Hin) as [cv' Ed].
  rewrite Ed. cbn [bind].
  eexists. exists s. split; [reflexivity |].
  cbn. repeat split; auto.
Qed.

(** ** Strings *)

Lemma append_nil_r (s : string) : String.append s "" = s.
Proof. induction s as [| a s IH]; simpl; [reflexivity | rewrite IH; reflexivity]. Qed.

Lemma append_assoc (s1 s2 s3 : string) :
  String.append (String.append s1 s2) s3 = String.append s1 (String.append s2 s3).
Proof.
  induction s1 as [| a s1 IH]; simpl; [reflexivity | rewrite IH; reflexivity].
Qed.

Lemma concat_empty_cons (x : string) (l : list string) :
  String.concat "" (x :: l) = String.append x (String.concat "" l).
Proof.
  destruct l as [| y l]; simpl.
  - symmetry. apply append_nil_r.
  - reflexivity.
Qed.

Lemma concat_empty_app (l1 l2 : list string) :
  String.concat "" (l1 ++ l2) =
    String.append (String.concat "" l1) (String.concat "" l2).
Proof.
  induction l1 as [| x l1 IH].
  - reflexivity.
  - rewrite <- app_comm_cons, !concat_empty_cons, IH, append_assoc. reflexivity.
Qed.

Lemma contains_concat (l1 l2 : list string) (x : string) :
  contains (String.concat "" (l1 ++ x :: l2)) x.
Proof.
  exists (String.concat "" l1), (String.concat "" l2).
  rewrite concat_empty_app, concat_empty_cons. reflexivity.
Qed.

Lemma feedback_text_contains_explain (cur : Scenario) (correct : bool) :
  contains (feedback_text cur correct) (explain cur).
Proof.
  unfold feedback_text. cbv zeta.
  apply (contains_concat
           [ "Answer: "; answer cur; nl; nl;
             if correct then "✓ Correct!" else "✗ Not quite."; nl; nl;
             "Reasoning: " ]).
Qed.

Lemma eqb_empty (s : string) : String.eqb s "" = false <-> s <> "".
Proof. apply String.eqb_neq. Qed.

(** ** Submitting *)

Lemma on_submit_answered (g : GamePage) :
  answered g = true -> on_submit g = Ok g.
Proof. intros H. unfold on_submit. rewrite H. reflexivity. Qed.

Lemma on_submit_empty (g : GamePage) :
  answered g = false -> choice_var g = "" ->
  on_submit g = Ok (showinfo "Choose one" "Please select an answer." g).
Proof.
  intros Ha Hc. unfold on_submit. rewrite Ha. cbv zeta. rewrite Hc. reflexivity.
Qed.

Lemma on_submit_active (g : GamePage) (s : Scenario) :
  answered g = false -> choice_var g <> "" -> current g = Some s ->
  let correct := String.eqb (choice_var g) (answer s) in
  on_submit g =
    Ok (mkGamePage (world g) (scenarios g) (current g)
          (rounds g + 1)%Z
          (if correct then (score g + 1)%Z else score g)
          true (canvas g) (choice_var g)
          (feedback_text s correct)
          (String.concat ""
             [ "Score: "; str_of_int (if correct then (score g + 1)%Z else score g);
               "/"; str_of_int (rounds g + 1)%Z ])
          (dialogs g)).
Proof.
  intros Ha Hc Hs correct. unfold on_submit. rewrite Ha. cbv zeta.
  apply eqb_empty in Hc. rewrite Hc.
  cbn [current set_rounds]. rewrite Hs. cbn [subscript bind].
  cbn [choice_var]. fold correct. rewrite <- Hs.
  destruct correct; reflexivity.
Qed.

Lemma on_submit_no_scenario (g : GamePage) :
  answered g = false -> choice_var g <> "" -> current g = None ->
  on_submit g = Raise TypeError.
Proof.
  intros Ha Hc Hs. unfold on_submit. rewrite Ha. cbv zeta.
  apply eqb_empty in Hc. rewrite Hc.
  cbn [current set_rounds]. rewrite Hs. reflexivity.
Qed.

(** C1. A submit made while [answered] is false, with a non-empty selection,
    on a page whose current scenario is [s], returns a page where: [rounds]
    is one more; [score] is one more when the selection is equal, as a
    string, to the answer label of [s], and unchanged otherwise; [answered]
    is true; the current scenario is still [s]; and the feedback text, which
    is the text composed for [s] and the verdict, contains the explanation
    string of [s]. *)
Theorem on_submit_scores (g : GamePage) (s : Scenario) :
  answered g = false -> choice_var g <> "" -> current g = Some s ->
  exists g',
    on_submit g = Ok g' /\
    rounds g' = (rounds g + 1)%Z /\
    (choice_var g = answer s -> score g' = (score g + 1)%Z) /\
    (choice_var g <> answer s -> score g' = score g) /\
    answered g' = true /\
    current g' = Some s /\
    msg g' = feedback_text s (String.eqb (choice_var g) (answer s)) /\
    contains (msg g') (explain s).
Proof.
  intros Ha Hc Hs.
  eexists. split; [apply (on_submit_active g s Ha Hc Hs) |].
  cbn [rounds score answered current msg].
  split; [reflexivity |].
  split.
  { intros E. apply String.eqb_eq in E. rewrite E. reflexivity. }
  split.
  { intros N. apply String.eqb_neq in N. rewrite N. reflexivity. }
  split; [reflexivity |]. split; [exact Hs |]. split; [reflexivity |].
  apply feedback_text_contains_explain.
Qed.

Lemma on_submit_scores_witness :
  answered (page_on proton_scenario "proton (p)" false) = false /\
  choice_var (page_on proton_scenario "proton (p)" false) <> "" /\
  current (page_on proton_scenario "proton (p)" false) = Some proton_scenario /\
  exists g',
    on_submit (page_on proton_scenario "proton (p)" false) = Ok g' /\
    rounds g' = 1%Z /\ score g' = 1%Z /\ answered g' = true.
Proof.
  assert (Ha : answered (page_on proton_scenario "proton (p)" false) = false)
    by reflexivity.
  assert (Hc : choice_var (page_on proton_scenario "proton (p)" false) <> "")
    by (cbn [choice_var page_on]; discriminate).
  assert (Hs : current (page_on proton_scenario "proton (p)" false)
               = Some proton_scenario) by reflexivity.
  split; [exact Ha |]. split; [exact Hc |]. split; [exact Hs |].
  destruct (on_submit_scores _ _ Ha Hc Hs)
    as [g' [E [Hr [Hyes [_ [Hans _]]]]]].
  exists g'. split; [exact E |].
  split; [exact Hr |].
  split; [apply Hyes; reflexivity | exact Hans].
Defined.

(** Two worked rounds: the proton scenario answered with the proton label,
    and the μ+ scenario answered with the proton label, which its geometry
    alone cannot tell apart. *)
Example submit_proton_right :
  exists g',
    on_submit (page_on proton_scenario "proton (p)" false) = Ok g' /\
    rounds g' = 1%Z /\ score g' = 1%Z /\ answered g' = true /\
    score_lbl g' = "Score: 1/1" /\
    msg g' = String.concat ""
      [ "Answer: proton (p)"; nl; nl; "✓ Correct!"; nl; nl;
        "Reasoning: Left gentle arc with heavy dE/dx (thick) → slow heavy positive → proton.";
        nl; nl; "Clues: turns left (+), gentle curvature, thick ionization" ].
Proof.
  eexists. split.
  - apply (on_submit_active (page_on proton_scenario "proton (p)" false)
             proton_scenario); [reflexivity | cbn; discriminate | reflexivity].
  - cbn [rounds score answered score_lbl msg].
    repeat split; vm_compute; reflexivity.
Qed.

Example submit_muplus_wrong :
  exists g',
    on_submit (page_on muplus_scenario "proton (p)" false) = Ok g' /\
    rounds g' = 1%Z /\ score g' = 0%Z /\ answered g' = true /\
    score_lbl g' = "Score: 0/1" /\
    msg g' = String.concat ""
      [ "Answer: muon (μ+)"; nl; nl; "✗ Not quite."; nl; nl;
        "Reasoning: Long gentle left arc; thin ionization → high-p positive MIP → μ⁺.";
        nl; nl; "Clues: turns left (+), gentle curvature, thin ionization" ].
Proof.
  eexists. split.
  - apply (on_submit_active (page_on muplus_scenario "proton (p)" false)
             muplus_scenario); [reflexivity | cbn; discriminate | reflexivity].
  - cbn [rounds score answered score_lbl msg].
    repeat split; vm_compute; reflexivity.
Qed.

(** ** The invariant of the game page *)

Lemma CHOICES_nonempty (c : string) : In c CHOICES -> c <> "".
Proof.
  unfold CHOICES. cbn [In].
  intros [<- | [<- | [<- | [<- | [<- | [<- | [<- | []]]]]]]]; discriminate.
Qed.

Lemma counters_le_refl (g : GamePage) : counters_le g g.
Proof. unfold counters_le. lia. Qed.

Lemma counters_le_trans (g1 g2 g3 : GamePage) :
  counters_le g1 g2 -> counters_le g2 g3 -> counters_le g1 g3.
Proof. unfold counters_le. lia. Qed.

Lemma init_Inv (r : nat) :
  exists g, GamePage_init r = Ok g /\ Inv g /\ score g = 0%Z /\ rounds g = 0%Z.
Proof.
  unfold GamePage_init. cbv zeta.
  match goal with
  | |- context [new_round r ?g0] =>
      destruct (new_round_ok r g0 eq_refl eq_refl)
        as [g [s [E [Hin [Hcur [Hw [Hsc [Hr [Hs [Ha [Hc _]]]]]]]]]]]
  end.
  exists g. split; [exact E |].
  cbn [rounds score] in Hr, Hs.
  split; [| split; assumption].
  constructor.
  - exact Hw.
  - exact Hsc.
  - exists s. split; assumption.
  - lia.
  - intros Ht. congruence.
Qed.

Lemma new_round_Inv (r : nat) (g : GamePage) :
  Inv g -> exists g', new_round r g = Ok g' /\ Inv g' /\ counters_le g g'.
Proof.
  intros [Hw Hsc _ Hle _].
  destruct (new_round_ok r g Hw Hsc)
    as [g' [s [E [Hin [Hcur [Hw' [Hsc' [Hr [Hs [Ha [Hc _]]]]]]]]]]].
  exists g'. split; [exact E |]. split.
  - constructor.
    + exact Hw'.
    + exact Hsc'.
    + exists s. split; assumption.
    + lia.
    + intros Ht. congruence.
  - unfold counters_le. lia.
Qed.

Lemma on_submit_Inv (g : GamePage) :
  Inv g -> exists g', on_submit g = Ok g' /\ Inv g' /\ counters_le g g'.
Proof.
  intros HI. destruct HI as [Hw Hsc [s [Hcur Hin]] Hle Hch].
  destruct (answered g) eqn:Ha.
  - exists g. split; [apply on_submit_answered; exact Ha |].
    split; [| apply counters_le_refl].
    constructor; try assumption.
    + exists s. split; assumption.
    + rewrite Ha. exact Hch.
  - destruct (String.eqb (choice_var g) "") eqn:Hc.
    + apply String.eqb_eq in Hc.
      eexists. split; [apply on_submit_empty; assumption |].
      split; [| unfold counters_le; cbn; lia].
      constructor; cbn; try assumption.
      * exists s. split; assumption.
      * rewrite Ha. discriminate.
    + apply String.eqb_neq in Hc.
      eexists. split; [apply (on_submit_active g s Ha Hc Hcur) |].
      split.
      * constructor; cbn [world scenarios current rounds score answered choice_var];
          try assumption.
        -- exists s. split; assumption.
        -- destruct (String.eqb (choice_var g) (answer s)); lia.
        -- intros _. exact Hc.
      * unfold counters_le. cbn [rounds score].
        destruct (String.eqb (choice_var g) (answer s)); lia.
Qed.

Lemma select_choice_Inv (i : nat) (g : GamePage) :
  Inv g -> Inv (select_choice i g) /\ counters_le g (select_choice i g).
Proof.
  intros HI. unfold select_choice.
  destruct (nth_error CHOICES i) as [c |] eqn:E.
  - split; [| unfold counters_le; cbn; lia].
    destruct HI as [Hw Hsc Hcur Hle Hch].
    constructor; cbn; try assumption.
    intros _. apply CHOICES_nonempty. eapply nth_error_In. exact E.
  - split; [exact HI | apply counters_le_refl].
Qed.

Lemma step_Inv (c : call) (g : GamePage) :
  Inv g -> exists g', step c g = Ok g' /\ Inv g' /\ counters_le g g'.
Proof.
  intros HI. destruct c as [r | | r | i]; cbn [step on_next].
  - apply new_round_Inv. exact HI.
  - apply on_submit_Inv. exact HI.
  - apply new_round_Inv. exact HI.
  - exists (select_choice i g). split; [reflexivity |].
    apply select_choice_Inv. exact HI.
Qed.

Lemma trace_Inv (cs : list call) :
  forall g, Inv g ->
  exists gs,
    trace cs g = Ok gs /\
    length gs = length cs /\
    Forall Inv gs /\
    StronglySorted counters_le (g :: gs).
Proof.
  induction cs as [| c cs IH]; intros g HI.
  - exists []. split; [reflexivity |]. split; [reflexivity |].
    split; constructor; constructor.
  - destruct (step_Inv c g HI) as [g' [E [HI' Hle]]].
    destruct (IH g' HI') as [gs [Et [Hlen [Hall Hsorted]]]].
    exists (g' :: gs). cbn [trace]. rewrite E. cbn [bind]. rewrite Et. cbn [bind].
    split; [reflexivity |]. split; [cbn; rewrite Hlen; reflexivity |].
    split; [constructor; assumption |].
    constructor; [exact Hsorted |].
    apply StronglySorted_inv in Hsorted. destruct Hsorted as [_ Hg'].
    constructor; [exact Hle |].
    eapply Forall_impl; [| exact Hg'].
    intros g'' Hle'. eapply counters_le_trans; eassumption.
Qed.

Lemma reachable_Inv (g : GamePage) : reachable g -> Inv g.
Proof.
  induction 1 as [r g E | c g g' _ IH E].
  - destruct (init_Inv r) as [g0 [E0 [HI _]]]. congruence.
  - destruct (step_Inv c g IH) as [g1 [E1 [HI _]]]. congruence.
Qed.

(** C2. Opening the game screen succeeds whatever number the random source
    draws, and so does every sequence of calls made on it afterwards (new
    round, submit, next, and radio-button clicks, with any random draws): no
    call raises, and on the opened page and on the page left by each call
    0 <= score <= rounds.  Along the whole sequence of pages neither [score]
    nor [rounds] ever decreases: each page has counters at most those of
    every later page. *)
Theorem score_le_rounds_always (r : nat) (cs : list call) :
  exists g0 gs,
    GamePage_init r = Ok g0 /\
    trace cs g0 = Ok gs /\
    length gs = length cs /\
    Forall (fun g => (0 <= score g <= rounds g)%Z) (g0 :: gs) /\
    StronglySorted
      (fun g g' => (score g <= score g')%Z /\ (rounds g <= rounds g')%Z)
      (g0 :: gs).
Proof.
  destruct (init_Inv r) as [g0 [E0 [HI _]]].
  destruct (trace_Inv cs g0 HI) as [gs [Et [Hlen [Hall Hsorted]]]].
  exists g0, gs. split; [exact E0 |]. split; [exact Et |].
  split; [exact Hlen |]. split; [| exact Hsorted].
  constructor; [apply (inv_score g0 HI) |].
  eapply Forall_impl; [| exact Hall].
  intros g Hg. apply (inv_score g Hg).
Qed.

(** C3. Submit changes nothing when [answered] is already true: it returns
    the page it was given.  When [answered] is false and the selection is the
    empty string, it returns the page with one more dialog shown, the
    informational prompt "Choose one" / "Please select an answer.", and
    nothing else changed.  So in both cases [score], [rounds], [answered]
    and the current scenario, and with them the selection, the feedback
    text, the score label and the canvas, are unchanged.  On a running game
    screen an empty selection is only met with [answered] false, so there an
    empty selection always gets the prompt. *)
Theorem on_submit_noop (g : GamePage) :
  (answered g = true -> on_submit g = Ok g) /\
  (answered g = false -> choice_var g = "" ->
     on_submit g = Ok (showinfo "Choose one" "Please select an answer." g) /\
     dialogs (showinfo "Choose one" "Please select an answer." g)
       = dialogs g ++ [("Choose one", "Please select an answer.")]) /\
  (answered g = true \/ choice_var g = "" ->
     exists g',
       on_submit g = Ok g' /\
       score g' = score g /\ rounds g' = rounds g /\
       answered g' = answered g /\ current g' = current g /\
       choice_var g' = choice_var g /\ msg g' = msg g /\
       score_lbl g' = score_lbl g /\ canvas g' = canvas g /\
       scenarios g' = scenarios g /\ world g' = world g) /\
  (reachable g -> choice_var g = "" ->
     on_submit g = Ok (showinfo "Choose one" "Please select an answer." g)).
Proof.
  split; [apply on_submit_answered |].
  split.
  { intros Ha Hc. split; [apply on_submit_empty; assumption | reflexivity]. }
  split.
  { intros H. destruct (answered g) eqn:Ha.
    - exists g. split; [apply on_submit_answered; exact Ha |].
      rewrite Ha. repeat split; reflexivity.
    - destruct H as [H | Hc]; [discriminate H |].
      eexists. split; [apply on_submit_empty; assumption |].
      cbn. rewrite Ha. repeat split; reflexivity. }
  intros Hr Hc. apply on_submit_empty; [| exact Hc].
  destruct (answered g) eqn:Ha; [| reflexivity].
  exfalso. apply (inv_choice g (reachable_Inv g Hr)); [exact Ha | exact Hc].
Qed.

Lemma on_submit_noop_witness :
  answered (page_on proton_scenario "proton (p)" true) = true /\
  on_submit (page_on proton_scenario "proton (p)" true)
    = Ok (page_on proton_scenario "proton (p)" true) /\
  answered (page_on proton_scenario "" false) = false /\
  choice_var (page_on proton_scenario "" false) = "" /\
  on_submit (page_on proton_scenario "" false)
    = Ok (showinfo "Choose one" "Please select an answer."
            (page_on proton_scenario "" false)).
Proof.
  assert (Ha : answered (page_on proton_scenario "proton (p)" true) = true)
    by reflexivity.
  assert (Hf : answered (page_on proton_scenario "" false) = false)
    by reflexivity.
  assert (He : choice_var (page_on proton_scenario "" false) = "")
    by reflexivity.
  split; [exact Ha |].
  split; [exact (proj1 (on_submit_noop _) Ha) |].
  split; [exact Hf |]. split; [exact He |].
  exact (proj1 (proj1 (proj2 (on_submit_noop _)) Hf He)).
Defined.

(** C10. Once the game screen is constructed, which starts the first round,
    and after every later call (new round, submit, next, radio-button click),
    the current scenario is an entry of the catalogue, never [None], so that
    a submit on that page returns a page: reading the answer, the explanation
    and the tags of the current scenario does not raise. *)
Theorem current_always_in_catalogue (r : nat) (cs : list call) :
  exists g0 gs,
    GamePage_init r = Ok g0 /\
    trace cs g0 = Ok gs /\
    length gs = length cs /\
    Forall (fun g =>
              current g <> None /\
              (exists s, current g = Some s /\ In s make_scenarios) /\
              scenarios g = make_scenarios /\
              (exists g', on_submit g = Ok g'))
           (g0 :: gs).
Proof.
  destruct (init_Inv r) as [g0 [E0 [HI _]]].
  destruct (trace_Inv cs g0 HI) as [gs [Et [Hlen [Hall _]]]].
  exists g0, gs. split; [exact E0 |]. split; [exact Et |].
  split; [exact Hlen |].
  assert (Hall0 : Forall Inv (g0 :: gs)) by (constructor; assumption).
  eapply Forall_impl; [| exact Hall0].
  intros g Hg. split.
  - destruct (inv_current g Hg) as [s [E _]]. congruence.
  - split; [exact (inv_current g Hg) |].
    split; [exact (inv_scenarios g Hg) |].
    destruct (on_submit_Inv g Hg) as [g' [E _]].
    exists g'. exact E.
Qed.

(** ** The test inputs are genuine *)

Lemma proton_scenario_in_catalogue : In proton_scenario make_scenarios.
Proof.
  unfold make_scenarios, proton_scenario. cbn [app In].
  do 4 right. left. reflexivity.
Qed.

Lemma muplus_scenario_in_catalogue : In muplus_scenario make_scenarios.
Proof.
  unfold make_scenarios, muplus_scenario. cbn [app In].
  do 3 right. left. reflexivity.
Qed.

(** On a running game screen a submit with [answered] false and a non-empty
    selection always finds a current scenario, and counts the round. *)
Lemma on_submit_running (g : GamePage) :
  reachable g -> answered g = false -> choice_var g <> "" ->
  exists s g',
    current g = Some s /\ In s make_scenarios /\
    on_submit g = Ok g' /\
    rounds g' = (rounds g + 1)%Z /\
    score g' = (score g + if String.eqb (choice_var g) (answer s) then 1 else 0)%Z /\
    answered g' = true /\
    contains (msg g') (explain s).
Proof.
  intros Hr Ha Hc.
  destruct (inv_current g (reachable_Inv g Hr)) as [s [Hs Hin]].
  exists s. eexists. split; [exact Hs |]. split; [exact Hin |].
  split; [apply (on_submit_active g s Ha Hc Hs) |].
  cbn [rounds score answered msg].
  split; [reflexivity |].
  split; [destruct (String.eqb (choice_var g) (answer s)); lia |].
  split; [reflexivity |].
  apply feedback_text_contains_explain.
Qed.

(** * Further properties of the geometry layer *)

(** ** Coordinate mapper: errors, bounds, injectivity *)

Lemma to_canvas_flat_y (self : World) (x y width height : R) :
  ymax self = ymin self ->
  to_canvas self x y width height = Raise ZeroDivisionError.
Proof.
  intros E. unfold to_canvas.
  destruct (truediv (x - xmin self) (xmax self - xmin self)) as [qx | e] eqn:Ex.
  - cbn [bind]. replace (ymax self - ymin self) with 0 by lra.
    rewrite truediv_zero. reflexivity.
  - unfold truediv in Ex. destruct (Req_dec_T _ 0); [| discriminate Ex].
    injection Ex as <-. reflexivity.
Qed.



Lemma to_canvas_bounded (self : World) (x y width height : R) :
  xmin self < xmax self -> ymin self < ymax self ->
  2 * margin self < width -> 2 * margin self < height ->
  exists X Y,
    to_canvas self x y width height = Ok (X, Y) /\
    (xmin self <= x <= xmax self <-> margin self <= X <= width - margin self) /\
    (ymin self <= y <= ymax self <-> margin self <= Y <= height - margin self) /\
    (in_viewport self (x, y) -> in_inset self width height X Y).
Proof.
  intros Hx Hy Hw Hh.
  rewrite to_canvas_ok by lra.
  eexists. eexists. split; [reflexivity |].
  set (dx := xmax self - xmin self). set (dy := ymax self - ymin self).
  set (W := width - 2 * margin self). set (H := height - 2 * margin self).
  assert (Hdx : 0 < dx) by (unfold dx; lra).
  assert (Hdy : 0 < dy) by (unfold dy; lra).
  assert (HW : 0 < W) by (unfold W; lra).
  assert (HH : 0 < H) by (unfold H; lra).
  assert (EX : forall v, (v / dx * W) * dx = v * W) by (intros v; field; lra).
  assert (EY : forall v, (v / dy * H) * dy = v * H) by (intros v; field; lra).
  assert (BX : xmin self <= x <= xmax self <->
               margin self <= margin self + (x - xmin self) / dx * W <= width - margin self).
  { specialize (EX (x - xmin self)).
    split; intros [H1 H2]; split.
    - assert (0 <= (x - xmin self) / dx * W); [| lra].
      apply Rmult_le_pos; [apply Rmult_le_pos; [lra | left; apply Rinv_0_lt_compat; exact Hdx] | lra].
    - assert ((x - xmin self) / dx * W <= W); [| unfold W in *; lra].
      apply Rmult_le_reg_r with dx; [exact Hdx |]. rewrite EX. unfold dx. nra.
    - assert (0 <= (x - xmin self) / dx * W) as Hp by lra.
      assert (0 <= (x - xmin self) * W) by (rewrite <- EX; apply Rmult_le_pos; lra).
      nra.
    - assert ((x - xmin self) / dx * W <= W) as Hp by (unfold W in *; lra).
      assert ((x - xmin self) * W <= W * dx)
        by (rewrite <- EX; apply Rmult_le_compat_r; lra).
      unfold dx in *. nra. }
  assert (BY : ymin self <= y <= ymax self <->
               margin self <= margin self + (ymax self - y) / dy * H <= height - margin self).
  { specialize (EY (ymax self - y)).
    split; intros [H1 H2]; split.
    - assert (0 <= (ymax self - y) / dy * H); [| lra].
      apply Rmult_le_pos; [apply Rmult_le_pos; [lra | left; apply Rinv_0_lt_compat; exact Hdy] | lra].
    - assert ((ymax self - y) / dy * H <= H); [| unfold H in *; lra].
      apply Rmult_le_reg_r with dy; [exact Hdy |]. rewrite EY. unfold dy. nra.
    - assert ((ymax self - y) / dy * H <= H) as Hp by (unfold H in *; lra).
      assert ((ymax self - y) * H <= H * dy)
        by (rewrite <- EY; apply Rmult_le_compat_r; lra).
      unfold dy in *. nra.
    - assert (0 <= (ymax self - y) / dy * H) as Hp by lra.
      assert (0 <= (ymax self - y) * H) by (rewrite <- EY; apply Rmult_le_pos; lra).
      nra. }
  split; [exact BX |]. split; [exact BY |].
  intros [Vx Vy]. cbn [fst snd] in Vx, Vy. split; [apply BX | apply BY]; assumption.
Qed.





(** ** Curve generators: sample counts, symmetries, extent *)




(** X5. A spiral whose two radii are equal is the counterclockwise arc of that
    radius from the start angle to the start angle plus the signed swept
    angle: same points, or the same exception. *)
Theorem spiral_constant_radius_is_arc (center : point) (r turns : R)
    (ccw : bool) (npts : Z) (start_angle : R) :
  spiral center r r turns ccw npts start_angle =
    arc center r start_angle (start_angle + swept turns ccw) true npts.
Proof.
  destruct (Z.eq_dec npts 1) as [-> | Hn].
  - rewrite spiral_single_sample, arc_single_sample. reflexivity.
  - rewrite spiral_closed_form, arc_closed_form by exact Hn.
    f_equal. apply map_ext. intros i. unfold arc_end.
    f_equal; ring.
Qed.








(** ** Extent of the curves *)

Lemma param_range (npts i : Z) :
  (0 <= i < npts)%Z -> (2 <= npts)%Z -> 0 <= param npts i <= 1.
Proof.
  intros Hi Hn. unfold param.
  assert (Hd : 0 < IZR (npts - 1)) by (apply IZR_lt; lia).
  assert (H0 : 0 <= IZR i) by (apply IZR_le; lia).
  assert (H1 : IZR i <= IZR (npts - 1)) by (apply IZR_le; lia).
  split.
  - apply Rmult_le_pos; [exact H0 | left; apply Rinv_0_lt_compat; exact Hd].
  - apply Rmult_le_reg_r with (IZR (npts - 1)); [exact Hd |].
    unfold Rdiv. rewrite Rmult_assoc, Rinv_l by lra. lra.
Qed.

Lemma interp_abs (a b t : R) :
  0 <= t <= 1 -> Rabs (a + t * (b - a)) <= Rmax (Rabs a) (Rabs b).
Proof.
  intros Ht.
  replace (a + t * (b - a)) with ((1 - t) * a + t * b) by ring.
  eapply Rle_trans; [apply Rabs_triang |].
  rewrite !Rabs_mult, (Rabs_right (1 - t)), (Rabs_right t) by lra.
  pose proof (Rmax_l (Rabs a) (Rabs b)) as Ha.
  pose proof (Rmax_r (Rabs a) (Rabs b)) as Hb.
  nra.
Qed.

Lemma interp_between (a b t : R) :
  0 <= t <= 1 -> Rmin a b <= a + t * (b - a) <= Rmax a b.
Proof.
  intros Ht.
  pose proof (Rmax_l a b). pose proof (Rmax_r a b).
  pose proof (Rmin_l a b). pose proof (Rmin_r a b).
  split; nra.
Qed.

Lemma spiral_extent (center : point) (r_start r_end turns : R)
    (ccw : bool) (npts : Z) (start_angle : R) (pts : list point) :
  spiral center r_start r_end turns ccw npts start_angle = Ok pts ->
  Forall (fun p => exists r th,
                     p = polar center r th /\
                     Rmin r_start r_end <= r <= Rmax r_start r_end /\
                     dist center p <= Rmax (Rabs r_start) (Rabs r_end))
         pts.
Proof.
  intros E.
  destruct (Z.eq_dec npts 1) as [-> | Hn].
  { rewrite spiral_single_sample in E. discriminate E. }
  rewrite spiral_closed_form in E by exact Hn. injection E as <-.
  apply Forall_forall. intros p Hp. apply in_map_iff in Hp.
  destruct Hp as [i [<- Hi]]. apply range_In in Hi.
  assert (Ht : 0 <= param npts i <= 1) by (apply param_range; lia).
  eexists. eexists. split; [reflexivity |].
  split; [apply interp_between; exact Ht |].
  rewrite dist_polar. apply interp_abs. exact Ht.
Qed.



(** * Further properties of the drawing layer *)

(** ** Polylines *)

Lemma to_canvas_pixel (w : World) (x y width height : R) :
  xmax w <> xmin w -> ymax w <> ymin w ->
  to_canvas w x y width height = Ok (pixel w width height (x, y)).
Proof. intros Hx Hy. rewrite to_canvas_ok by lra. reflexivity. Qed.

Lemma fold_left_app_flat_map {A B : Type} (h : A -> list B) (l : list A)
    (acc : list B) :
  fold_left (fun xy p => xy ++ h p) l acc = acc ++ flat_map h l.
Proof.
  revert acc. induction l as [| a l IH]; intros acc; simpl.
  - rewrite app_nil_r. reflexivity.
  - rewrite IH, app_assoc. reflexivity.
Qed.


Lemma polyline_closed_form (cv : Canvas) (pts : list point) (w : World)
    (width : Z) (dash : option (list Z)) (fill : string) :
  xmax w <> xmin w -> ymax w <> ymin w ->
  polyline cv pts w width dash fill =
    Ok (add_item
          (create_line (pixels w (IZR (cv_width cv)) (IZR (cv_height cv)) pts)
             width true (Some 24%Z) dash (Some fill))
          cv).
Proof.
  intros Hx Hy. unfold polyline. cbv zeta.
  rewrite (foldM_ok _
             (fun xy p => xy ++ [fst (pixel w (IZR (cv_width cv)) (IZR (cv_height cv)) p);
                                 snd (pixel w (IZR (cv_width cv)) (IZR (cv_height cv)) p)])).
  - cbn [bind]. rewrite fold_left_app_flat_map. reflexivity.
  - intros xy [x y] _. rewrite (to_canvas_pixel w x y _ _ Hx Hy). reflexivity.
Qed.




(** ** Background *)

Lemma to_canvas_pair (w : World) (x y width height : R) :
  xmax w <> xmin w -> ymax w <> ymin w ->
  to_canvas w x y width height =
    Ok (fst (pixel w width height (x, y)), snd (pixel w width height (x, y))).
Proof. intros Hx Hy. rewrite to_canvas_ok by lra. reflexivity. Qed.

Lemma add_item_items (it : item) (cv : Canvas) :
  add_item it cv = mkCanvas (cv_width cv) (cv_height cv) (items cv ++ [it]).
Proof. reflexivity. Qed.

Lemma foldM_appends {A : Type} (f : Canvas -> A -> result Canvas) (k : nat)
    (l : list A) :
  (forall c a, In a l ->
     exists new, f c a = Ok (mkCanvas (cv_width c) (cv_height c) (items c ++ new)) /\
                 length new = k) ->
  forall c,
    exists new, foldM f c l = Ok (mkCanvas (cv_width c) (cv_height c) (items c ++ new)) /\
                length new = (k * length l)%nat.
Proof.
  induction l as [| a l IH]; intros Hf c.
  - exists []. cbn [foldM]. rewrite app_nil_r. destruct c. split; [reflexivity | simpl; lia].
  - destruct (Hf c a (or_introl eq_refl)) as [n1 [E1 L1]].
    cbn [foldM]. rewrite E1. cbn [bind].
    destruct (IH (fun c' b Hb => Hf c' b (or_intror Hb))
                 (mkCanvas (cv_width c) (cv_height c) (items c ++ n1)))
      as [n2 [E2 L2]].
    rewrite E2. cbn [cv_width cv_height items].
    exists (n1 ++ n2). rewrite app_assoc. split; [reflexivity |].
    rewrite length_app, L1, L2. cbn [length]. lia.
Qed.

Lemma draw_Bfield_items (cv : Canvas) (w : World) :
  xmax w <> xmin w -> ymax w <> ymin w ->
  exists new,
    draw_Bfield cv w = Ok (mkCanvas (cv_width cv) (cv_height cv) (items cv ++ new)) /\
    length new = 63%nat.
Proof.
  intros Hx Hy. unfold draw_Bfield. cbv zeta.
  match goal with
  | |- context [foldM ?f cv ?ys] =>
      destruct (foldM_appends f 12 ys) with (c := cv) as [new [E L]]
  end.
  - intros c y _.
    match goal with
    | |- context [foldM ?f c ?xs] =>
        destruct (foldM_appends f 3 xs) with (c := c) as [new [E L]]
    end.
    + intros c' x _. rewrite (to_canvas_pair w x y _ _ Hx Hy).
      cbn [bind]. rewrite !add_item_items. cbn [cv_width cv_height items].
      rewrite <- !app_assoc. eexists. split; [reflexivity |]. reflexivity.
    + exists new. split; [exact E |]. rewrite L. reflexivity.
  - rewrite E. cbn [bind]. rewrite !add_item_items. cbn [cv_width cv_height items].
    rewrite <- !app_assoc. eexists. split; [reflexivity |].
    rewrite length_app, L. reflexivity.
Qed.

Lemma draw_axes_items (cv : Canvas) (w : World) :
  xmax w <> xmin w -> ymax w <> ymin w ->
  exists new,
    draw_axes cv w = Ok (mkCanvas (cv_width cv) (cv_height cv) (items cv ++ new)) /\
    length new = 6%nat.
Proof.
  intros Hx Hy. unfold draw_axes. cbv zeta.
  rewrite !(to_canvas_pair w _ _ _ _ Hx Hy). cbn [bind].
  rewrite !add_item_items. cbn [cv_width cv_height items].
  rewrite <- !app_assoc. eexists. split; [reflexivity |]. reflexivity.
Qed.

Lemma draw_Bfield_flat (cv : Canvas) (w : World) :
  xmax w = xmin w \/ ymax w = ymin w ->
  draw_Bfield cv w = Raise ZeroDivisionError.
Proof.
  intros H. unfold draw_Bfield. cbv zeta. cbn [foldM].
  destruct H as [E | E];
    [rewrite (to_canvas_flat_x _ _ _ _ _ E) | rewrite (to_canvas_flat_y _ _ _ _ _ E)];
    reflexivity.
Qed.

Lemma draw_background_items (g : GamePage) :
  xmax (world g) <> xmin (world g) -> ymax (world g) <> ymin (world g) ->
  exists bg,
    draw_background g =
      Ok (set_canvas (mkCanvas (cv_width (canvas g)) (cv_height (canvas g)) bg) g) /\
    length bg = 71%nat.
Proof.
  intros Hx Hy. unfold draw_background. cbv zeta.
  destruct (draw_Bfield_items (delete_all (canvas g)) (world g) Hx Hy) as [n1 [E1 L1]].
  rewrite E1. cbn [bind].
  match goal with
  | |- context [draw_axes ?c (world g)] =>
      destruct (draw_axes_items c (world g) Hx Hy) as [n2 [E2 L2]]
  end.
  rewrite E2. cbn [bind cv_width cv_height items delete_all].
  rewrite !(to_canvas_pair (world g) _ _ _ _ Hx Hy). cbn [bind].
  rewrite !add_item_items. cbn [cv_width cv_height items app].
  eexists. split; [reflexivity |].
  rewrite !length_app, L1, L2. reflexivity.
Qed.

Lemma draw_background_dims (g1 g2 g1' : GamePage) :
  world g1 = world g2 ->
  cv_width (canvas g1) = cv_width (canvas g2) ->
  cv_height (canvas g1) = cv_height (canvas g2) ->
  draw_background g1 = Ok g1' ->
  draw_background g2 = Ok (set_canvas (canvas g1') g2).
Proof.
  intros Hw Hcw Hch. unfold draw_background, delete_all. cbv zeta.
  rewrite <- Hw, <- Hcw, <- Hch.
  destruct (draw_Bfield _ (world g1)) as [c1 | e]; cbn [bind]; [| discriminate].
  destruct (draw_axes c1 (world g1)) as [c2 | e]; cbn [bind]; [| discriminate].
  destruct (to_canvas (world g1) 0.0 (-0.5) _ _) as [[x0 y0'] | e]; cbn [bind];
    [| discriminate].
  destruct (to_canvas (world g1) 0.0 0.5 _ _) as [[x1 y1] | e]; cbn [bind];
    [| discriminate].
  intros E. injection E as <-. reflexivity.
Qed.

(** X11. [draw_background] wipes the canvas and leaves exactly 71 items on it (20
    field glyphs of three items each, three captions, two axes of three
    items each, and the two items of the upward stub) whatever was drawn
    before: redrawing over any earlier content gives the same canvas, of the
    same size, and no other field of the page changes.  On a world that is
    flat in x or y it raises ZeroDivisionError. *)
Theorem draw_background_redraws (g : GamePage) :
  (xmax (world g) <> xmin (world g) -> ymax (world g) <> ymin (world g) ->
     exists bg,
       length bg = 71%nat /\
       forall its,
         draw_background
           (set_canvas (mkCanvas (cv_width (canvas g)) (cv_height (canvas g)) its) g)
         = Ok (set_canvas (mkCanvas (cv_width (canvas g)) (cv_height (canvas g)) bg) g)) /\
  (xmax (world g) = xmin (world g) \/ ymax (world g) = ymin (world g) ->
     draw_background g = Raise ZeroDivisionError).
Proof.
  split.
  - intros Hx Hy. destruct (draw_background_items g Hx Hy) as [bg [E L]].
    exists bg. split; [exact L |]. intros its.
    apply (draw_background_dims g _ _ eq_refl eq_refl eq_refl) in E.
    exact E.
  - intros H. unfold draw_background. cbv zeta.
    rewrite (draw_Bfield_flat _ _ H). reflexivity.
Qed.

Lemma draw_background_redraws_witness :
  exists bg,
    length bg = 71%nat /\
    draw_background (page_on proton_scenario "" false)
      = Ok (set_canvas (mkCanvas 720 680 bg) (page_on proton_scenario "" false)).
Proof.
  destruct (proj1 (draw_background_redraws (page_on proton_scenario "" false)))
    as [bg [L E]]; try (simpl; lra).
  exists bg. split; [exact L |]. exact (E []).
Defined.

(** ** The tracks of the catalogue stay on the canvas *)

Lemma small_angle (phi : R) :
  0 <= phi <= 1 -> 1 / 2 <= cos phi <= 1 /\ 0 <= sin phi <= phi.
Proof.
  intros [H0 H1].
  pose proof PI2_3_2 as HPI.
  split; [split |].
  - rewrite <- cos_PI3. apply cos_decr_1; lra.
  - apply COS_bound.
  - split.
    + apply sin_ge_0; lra.
    + destruct (Req_dec phi 0) as [-> | N].
      * rewrite sin_0. lra.
      * left. apply sin_lt_x. lra.
Qed.

Lemma left_arc_in_viewport (cx cy r a0 a1 : R) (npts : Z) (pts : list point) :
  cx = - r -> cy = 0 -> a0 = 0 -> 0 <= r <= 20 -> 0 <= a1 <= 1 -> r * a1 <= 10 ->
  arc (cx, cy) r a0 a1 true npts = Ok pts ->
  Forall (in_viewport World_default) pts.
Proof.
  intros -> -> -> Hr Ha Hra E.
  destruct (Z.eq_dec npts 1) as [-> | Hn].
  { rewrite arc_single_sample in E. discriminate E. }
  rewrite arc_closed_form in E by exact Hn. injection E as <-.
  apply Forall_forall. intros p Hp. apply in_map_iff in Hp.
  destruct Hp as [i [<- Hi]]. apply range_In in Hi.
  assert (Ht : 0 <= param npts i <= 1) by (apply param_range; lia).
  unfold arc_end, polar, in_viewport. cbn [fst snd xmin xmax ymin ymax World_default].
  set (phi := 0 + param npts i * (a1 - 0)).
  assert (Hphi : 0 <= phi <= 1) by (unfold phi; nra).
  assert (Hphi' : phi <= a1) by (unfold phi; nra).
  destruct (small_angle phi Hphi) as [[Hc1 Hc2] [Hs1 Hs2]].
  split; split; nra.
Qed.

Lemma right_arc_in_viewport (cx cy r a0 a1 d : R) (npts : Z) (pts : list point) :
  cx = r -> cy = 0 -> a0 = PI -> a1 = PI - d ->
  0 <= r <= 20 -> 0 <= d <= 1 -> r * d <= 10 ->
  arc (cx, cy) r a0 a1 false npts = Ok pts ->
  Forall (in_viewport World_default) pts.
Proof.
  intros -> -> -> -> Hr Ha Hra E.
  destruct (Z.eq_dec npts 1) as [-> | Hn].
  { rewrite arc_single_sample in E. discriminate E. }
  rewrite arc_closed_form in E by exact Hn. injection E as <-.
  apply Forall_forall. intros p Hp. apply in_map_iff in Hp.
  destruct Hp as [i [<- Hi]]. apply range_In in Hi.
  assert (Ht : 0 <= param npts i <= 1) by (apply param_range; lia).
  unfold arc_end, polar, in_viewport. cbn [fst snd xmin xmax ymin ymax World_default].
  set (phi := param npts i * d).
  replace (PI + param npts i * (PI - (PI - d - PI) - PI)) with (phi + PI)
    by (unfold phi; ring).
  rewrite neg_cos, neg_sin.
  assert (Hphi : 0 <= phi <= 1) by (unfold phi; nra).
  assert (Hphi' : phi <= d) by (unfold phi; nra).
  destruct (small_angle phi Hphi) as [[Hc1 Hc2] [Hs1 Hs2]].
  split; split; nra.
Qed.

Lemma spiral_in_viewport (cx cy r_start r_end turns : R) (ccw : bool)
    (npts : Z) (start_angle : R) (pts : list point) :
  -7 <= cx <= 7 -> -7 <= cy <= 7 ->
  -3 <= r_start <= 3 -> -3 <= r_end <= 3 ->
  spiral (cx, cy) r_start r_end turns ccw npts start_angle = Ok pts ->
  Forall (in_viewport World_default) pts.
Proof.
  intros Hcx Hcy H0 H1 E.
  apply spiral_extent in E.
  eapply Forall_impl; [| exact E].
  intros p [r [th [-> [[Hlo Hhi] _]]]].
  assert (Hr : -3 <= r <= 3).
  { pose proof (Rmin_glb r_start r_end (-3)). pose proof (Rmax_lub r_start r_end 3).
    lra. }
  unfold polar, in_viewport. cbn [fst snd xmin xmax ymin ymax World_default].
  pose proof (COS_bound th) as Hc. pose proof (SIN_bound th) as Hs.
  split; split; nra.
Qed.

Lemma pixels_in_inset (w : World) (width height : R) (pts : list point) :
  xmin w < xmax w -> ymin w < ymax w ->
  2 * margin w < width -> 2 * margin w < height ->
  Forall (in_viewport w) pts ->
  coords_in_inset w width height (pixels w width height pts).
Proof.
  intros Hx Hy Hw Hh. unfold pixels.
  induction 1 as [| p pts Hp _ IH]; cbn [flat_map app coords_in_inset].
  - exact I.
  - split; [| exact IH].
    destruct p as [x y].
    destruct (to_canvas_bounded w x y width height Hx Hy Hw Hh)
      as [X [Y [E [_ [_ Hin]]]]].
    rewrite to_canvas_pixel in E by lra.
    assert (E' : pixel w width height (x, y) = (X, Y)) by congruence.
    rewrite E'. cbn [fst snd]. apply Hin. exact Hp.
Qed.

Lemma polyline_default_in_inset (cv : Canvas) (pts : list point) (width : Z) :
  (86 <= cv_width cv)%Z -> (86 <= cv_height cv)%Z ->
  Forall (in_viewport World_default) pts ->
  exists it,
    polyline cv pts World_default width None TRACK_COLOR =
      Ok (mkCanvas (cv_width cv) (cv_height cv) (items cv ++ [it])) /\
    item_in_inset World_default cv it.
Proof.
  intros Hw Hh Hpts.
  apply IZR_le in Hw. apply IZR_le in Hh.
  rewrite polyline_closed_form by (simpl; lra).
  eexists. split; [reflexivity |].
  unfold item_in_inset. apply pixels_in_inset; try (simpl; lra). exact Hpts.
Qed.

Lemma draw_catalogue_in_inset (s : Scenario) (cv : Canvas) :
  In s make_scenarios -> (86 <= cv_width cv)%Z -> (86 <= cv_height cv)%Z ->
  exists new,
    draw s cv World_default =
      Ok (mkCanvas (cv_width cv) (cv_height cv) (items cv ++ new)) /\
    (length new <= 3)%nat /\
    Forall (item_in_inset World_default cv) new.
Proof.
  intros Hs Hw Hh. destruct (In_catalogue s Hs) as [Hd _].
  destruct Hd as [E | [E | [E | [E | [E | [E | E]]]]]]; rewrite E; clear E.
  - unfold draw_eplus. cbv zeta.
    destruct (spiral (Ropp 3.0, y0) 3.0 0.6 3.2 true spiral_npts 0.0) as [pts | e] eqn:Ep.
    2:{ rewrite spiral_closed_form in Ep by (unfold spiral_npts; lia). discriminate Ep. }
    cbn [bind]. apply spiral_in_viewport in Ep; try (unfold y0; lra).
    destruct (polyline_default_in_inset cv pts THIN Hw Hh Ep) as [it [Ei Hi]].
    rewrite Ei. exists [it]. split; [reflexivity |]. split; [simpl; lia |].
    constructor; [exact Hi | constructor].
  - unfold draw_eminus. cbv zeta.
    destruct (spiral (3.0, y0) 3.0 0.6 3.2 false spiral_npts PI) as [pts | e] eqn:Ep.
    2:{ rewrite spiral_closed_form in Ep by (unfold spiral_npts; lia). discriminate Ep. }
    cbn [bind]. apply spiral_in_viewport in Ep; try (unfold y0; lra).
    destruct (polyline_default_in_inset cv pts THIN Hw Hh Ep) as [it [Ei Hi]].
    rewrite Ei. exists [it]. split; [reflexivity |]. split; [simpl; lia |].
    constructor; [exact Hi | constructor].
  - unfold draw_muminus. cbv zeta.
    destruct (arc (20.0, y0) 20.0 PI (PI - 0.5) false 160) as [pts | e] eqn:Ep.
    2:{ rewrite arc_closed_form in Ep by lia. discriminate Ep. }
    cbn [bind].
    apply (right_arc_in_viewport _ _ _ _ _ 0.5) in Ep; try (unfold y0; lra).
    destruct (polyline_default_in_inset cv pts THIN Hw Hh Ep) as [it [Ei Hi]].
    rewrite Ei. exists [it]. split; [reflexivity |]. split; [simpl; lia |].
    constructor; [exact Hi | constructor].
  - unfold draw_muplus. cbv zeta.
    destruct (arc (Ropp 20.0, y0) 20.0 0.0 0.5 true 160) as [pts | e] eqn:Ep.
    2:{ rewrite arc_closed_form in Ep by lia. discriminate Ep. }
    cbn [bind].
    apply left_arc_in_viewport in Ep; try (unfold y0; lra).
    destruct (polyline_default_in_inset cv pts THIN Hw Hh Ep) as [it [Ei Hi]].
    rewrite Ei. exists [it]. split; [reflexivity |]. split; [simpl; lia |].
    constructor; [exact Hi | constructor].
  - unfold draw_proton. cbv zeta.
    destruct (arc (Ropp 20.0, y0) 20.0 0.0 0.5 true 160) as [pts | e] eqn:Ep.
    2:{ rewrite arc_closed_form in Ep by lia. discriminate Ep. }
    cbn [bind].
    apply left_arc_in_viewport in Ep; try (unfold y0; lra).
    destruct (polyline_default_in_inset cv pts THICK Hw Hh Ep) as [it [Ei Hi]].
    rewrite Ei. exists [it]. split; [reflexivity |]. split; [simpl; lia |].
    constructor; [exact Hi | constructor].
  - unfold draw_gamma_pair. cbv zeta.
    destruct (arc (0.0 - 6.0, 0.0) 6.0 0.0 0.9 true 120) as [pts1 | e] eqn:Ep1.
    2:{ rewrite arc_closed_form in Ep1 by lia. discriminate Ep1. }
    cbn [bind].
    apply left_arc_in_viewport in Ep1; try lra.
    destruct (polyline_default_in_inset cv pts1 THIN Hw Hh Ep1) as [it1 [Ei1 Hi1]].
    rewrite Ei1. cbn [bind].
    destruct (arc (0.0 + 6.0, 0.0) 6.0 PI (PI - 0.9) false 120) as [pts2 | e] eqn:Ep2.
    2:{ rewrite arc_closed_form in Ep2 by lia. discriminate Ep2. }
    cbn [bind].
    apply (right_arc_in_viewport _ _ _ _ _ 0.9) in Ep2; try lra.
    destruct (polyline_default_in_inset
                (mkCanvas (cv_width cv) (cv_height cv) (items cv ++ [it1]))
                pts2 THIN Hw Hh Ep2) as [it2 [Ei2 Hi2]].
    rewrite Ei2. cbn [bind cv_width cv_height items].
    rewrite to_canvas_pair by (simpl; lra). cbn [bind].
    rewrite add_item_items. cbn [cv_width cv_height items].
    rewrite <- !app_assoc. cbn [app].
    eexists. split; [reflexivity |]. split; [simpl; lia |].
    constructor; [exact Hi1 |]. constructor; [exact Hi2 |].
    constructor; [| constructor].
    apply IZR_le in Hw. apply IZR_le in Hh.
    unfold item_in_inset, in_inset, pixel.
    cbn [fst snd xmin xmax ymin ymax margin World_default].
    split; split; lra.
  - unfold draw_neutron. exists []. rewrite app_nil_r. destruct cv.
    split; [reflexivity |]. split; [simpl; lia | constructor].
Qed.

(** X12. On the default world and any canvas of at least 86 by 86 pixels, the
    draw routine of every catalogue scenario returns the canvas with at most
    three items added behind the ones it had, all of them wholly inside the
    margin-inset rectangle of the canvas: every track stays visible. *)
Theorem catalogue_tracks_on_canvas (s : Scenario) (cv : Canvas) :
  In s make_scenarios -> (86 <= cv_width cv)%Z -> (86 <= cv_height cv)%Z ->
  exists new,
    draw s cv World_default =
      Ok (mkCanvas (cv_width cv) (cv_height cv) (items cv ++ new)) /\
    (length new <= 3)%nat /\
    Forall (item_in_inset World_default cv) new.
Proof. apply draw_catalogue_in_inset. Qed.

Lemma catalogue_tracks_on_canvas_witness :
  exists new,
    draw proton_scenario (mkCanvas 720 680 []) World_default =
      Ok (mkCanvas 720 680 new) /\
    Forall (item_in_inset World_default (mkCanvas 720 680 [])) new.
Proof.
  destruct (catalogue_tracks_on_canvas proton_scenario (mkCanvas 720 680 []))
    as [new [E [_ H]]].
  - apply proton_scenario_in_catalogue.
  - simpl. lia.
  - simpl. lia.
  - exists new. split; [exact E | exact H].
Defined.

(** ** How the tracks of the catalogue relate *)




(** * Further properties of the game page *)

Lemma new_round_form (r : nat) (g : GamePage) :
  world g = World_default -> scenarios g = make_scenarios ->
  exists s bg cv',
    In s make_scenarios /\
    random_choice r make_scenarios = Ok s /\
    length bg = 71%nat /\
    (forall h, world h = World_default ->
               cv_width (canvas h) = cv_width (canvas g) ->
               cv_height (canvas h) = cv_height (canvas g) ->
               draw_background h =
                 Ok (set_canvas (mkCanvas (cv_width (canvas g)) (cv_height (canvas g)) bg) h)) /\
    draw s (mkCanvas (cv_width (canvas g)) (cv_height (canvas g)) bg) World_default = Ok cv' /\
    new_round r g =
      Ok (mkGamePage World_default make_scenarios (Some s) (rounds g) (score g)
            false cv' "" ROUND_PROMPT (score_lbl g) (dialogs g)).
Proof.
  intros Hw Hs.
  assert (Hx : xmax (world g) <> xmin (world g)) by (rewrite Hw; simpl; lra).
  assert (Hy : ymax (world g) <> ymin (world g)) by (rewrite Hw; simpl; lra).
  destruct (draw_background_items g Hx Hy) as [bg [Eb Lb]].
  destruct (random_choice_In r make_scenarios make_scenarios_nonempty)
    as [s [Ec Hin]].
  destruct (draw_catalogue_default s
              (mkCanvas (cv_width (canvas g)) (cv_height (canvas g)) bg) Hin)
    as [cv' Ed].
  exists s, bg, cv'.
  split; [exact Hin |]. split; [exact Ec |]. split; [exact Lb |].
  assert (Hbg : forall h, world h = World_default ->
               cv_width (canvas h) = cv_width (canvas g) ->
               cv_height (canvas h) = cv_height (canvas g) ->
               draw_background h =
                 Ok (set_canvas (mkCanvas (cv_width (canvas g)) (cv_height (canvas g)) bg) h)).
  { intros h Hwh Hcw Hch.
    apply (draw_background_dims g h _) in Eb; [exact Eb | congruence | congruence | congruence]. }
  split; [exact Hbg |]. split; [exact Ed |].
  unfold new_round. cbv zeta.
  rewrite Hbg by (try reflexivity; exact Hw).
  cbn [bind scenarios set_canvas msg_set set_choice_var set_answered].
  rewrite Hs, Ec. cbn [bind].
  cbn [canvas world set_current set_canvas msg_set set_choice_var set_answered].
  rewrite Hw, Ed. cbn [bind].
  unfold set_canvas, set_current, msg_set, set_choice_var, set_answered, ROUND_PROMPT.
  cbn [world scenarios current rounds score answered canvas choice_var msg
       score_lbl dialogs].
  rewrite Hw, Hs. reflexivity.
Qed.


Lemma score_text_zero :
  "Score: 0/0" = String.concat "" ["Score: "; str_of_int 0; "/"; str_of_int 0].
Proof. reflexivity. Qed.

Lemma init_Shown (r : nat) : exists g, GamePage_init r = Ok g /\ Shown g.
Proof.
  destruct (init_Inv r) as [g [E [HI _]]].
  exists g. split; [exact E |].
  unfold GamePage_init in E. cbv zeta in E.
  match type of E with
  | new_round r ?g0 = _ =>
      destruct (new_round_form r g0 eq_refl eq_refl)
        as [s [bg [cv' [Hin [Ec [Lb [Hbg [Ed En]]]]]]]];
      rewrite En in E
  end.
  injection E as <-.
  cbn [canvas cv_width cv_height rounds score score_lbl dialogs] in *.
  destruct (draw_catalogue_in_inset s (mkCanvas 720 680 bg) Hin) as [new [Ed' _]];
    [simpl; lia | simpl; lia |].
  cbn [cv_width cv_height items] in Ed'.
  assert (Ecv : cv' = mkCanvas 720 680 (bg ++ new)) by congruence.
  subst cv'.
  constructor.
  - exact HI.
  - exact score_text_zero.
  - reflexivity.
  - left. reflexivity.
  - unfold canvas_fresh. cbn [canvas cv_width cv_height current].
    split; [reflexivity |]. split; [reflexivity |].
    exists s, bg. split; [reflexivity |]. split; [exact Lb |].
    split; [| exact Ed].
    apply Hbg; reflexivity.
Qed.

Lemma canvas_fresh_transfer (g g' : GamePage) :
  world g' = world g -> canvas g' = canvas g -> current g' = current g ->
  canvas_fresh g -> canvas_fresh g'.
Proof.
  intros Hw Hc Hcur [Hcw [Hch [s [bg [Es [Lb [Eb Ed]]]]]]].
  unfold canvas_fresh. rewrite Hc, Hcur.
  split; [exact Hcw |]. split; [exact Hch |].
  exists s, bg. split; [exact Es |]. split; [exact Lb |]. split; [| exact Ed].
  apply (draw_background_dims g g' _) in Eb; [exact Eb | congruence | congruence | congruence].
Qed.

Lemma new_round_Shown (r : nat) (g : GamePage) :
  Shown g -> exists g', new_round r g = Ok g' /\ Shown g'.
Proof.
  intros HS. pose proof (shown_inv g HS) as HI.
  destruct (new_round_Inv r g HI) as [g' [E [HI' _]]].
  exists g'. split; [exact E |].
  destruct (new_round_form r g (inv_world g HI) (inv_scenarios g HI))
    as [s [bg [cv' [Hin [Ec [Lb [Hbg [Ed En]]]]]]]].
  destruct (shown_canvas g HS) as [Hcw [Hch _]].
  rewrite Hcw, Hch in Hbg, Ed.
  destruct (draw_catalogue_in_inset s (mkCanvas 720 680 bg) Hin) as [new [Ed' _]];
    [simpl; lia | simpl; lia |].
  cbn [cv_width cv_height items] in Ed'.
  assert (Ecv : cv' = mkCanvas 720 680 (bg ++ new)) by congruence.
  subst cv'.
  assert (Eg : g' = mkGamePage World_default make_scenarios (Some s) (rounds g)
                      (score g) false (mkCanvas 720 680 (bg ++ new)) ""
                      ROUND_PROMPT (score_lbl g) (dialogs g)) by congruence.
  subst g'.
  constructor.
  - exact HI'.
  - cbn [score_lbl]. rewrite (shown_label g HS). reflexivity.
  - reflexivity.
  - left. reflexivity.
  - unfold canvas_fresh. cbn [canvas cv_width cv_height current].
    split; [reflexivity |]. split; [reflexivity |].
    exists s, bg. split; [reflexivity |]. split; [exact Lb |].
    split; [| exact Ed].
    apply Hbg; reflexivity.
Qed.

Lemma on_submit_Shown (g : GamePage) :
  Shown g -> exists g', on_submit g = Ok g' /\ Shown g'.
Proof.
  intros HS. pose proof (shown_inv g HS) as HI.
  destruct (on_submit_Inv g HI) as [g' [E [HI' _]]].
  exists g'. split; [exact E |].
  destruct (inv_current g HI) as [s [Hcur Hin]].
  destruct (answered g) eqn:Ha.
  - rewrite (on_submit_answered g Ha) in E. injection E as <-. exact HS.
  - destruct (String.eqb (choice_var g) "") eqn:Hc.
    + apply String.eqb_eq in Hc.
      rewrite (on_submit_empty g Ha Hc) in E. injection E as <-.
      constructor.
      * exact HI'.
      * exact (shown_label g HS).
      * cbn [answered msg showinfo]. rewrite Ha.
        pose proof (shown_msg g HS) as Hm. rewrite Ha in Hm. exact Hm.
      * exact (shown_choice g HS).
      * apply (canvas_fresh_transfer g); [reflexivity | reflexivity | reflexivity |].
        exact (shown_canvas g HS).
    + apply String.eqb_neq in Hc.
      rewrite (on_submit_active g s Ha Hc Hcur) in E. injection E as <-.
      constructor.
      * exact HI'.
      * reflexivity.
      * cbn [answered current msg]. exists s. eexists. split; [exact Hcur | reflexivity].
      * exact (shown_choice g HS).
      * apply (canvas_fresh_transfer g); [reflexivity | reflexivity | reflexivity |].
        exact (shown_canvas g HS).
Qed.

Lemma select_choice_Shown (i : nat) (g : GamePage) :
  Shown g -> Shown (select_choice i g).
Proof.
  intros HS. pose proof (shown_inv g HS) as HI.
  destruct (select_choice_Inv i g HI) as [HI' _].
  revert HI'. unfold select_choice.
  destruct (nth_error CHOICES i) as [c |] eqn:E; intros HI'; [| exact HS].
  constructor.
  - exact HI'.
  - exact (shown_label g HS).
  - exact (shown_msg g HS).
  - right. cbn [choice_var set_choice_var]. eapply nth_error_In. exact E.
  - apply (canvas_fresh_transfer g); [reflexivity | reflexivity | reflexivity |].
    exact (shown_canvas g HS).
Qed.

Lemma step_Shown (c : call) (g : GamePage) :
  Shown g -> exists g', step c g = Ok g' /\ Shown g'.
Proof.
  intros HS. destruct c as [r | | r | i]; cbn [step on_next].
  - apply new_round_Shown. exact HS.
  - apply on_submit_Shown. exact HS.
  - apply new_round_Shown. exact HS.
  - exists (select_choice i g). split; [reflexivity |].
    apply select_choice_Shown. exact HS.
Qed.

Lemma trace_Shown (cs : list call) :
  forall g, Shown g -> exists gs, trace cs g = Ok gs /\ Forall Shown gs.
Proof.
  induction cs as [| c cs IH]; intros g HS.
  - exists []. split; [reflexivity | constructor].
  - destruct (step_Shown c g HS) as [g' [E HS']].
    destruct (IH g' HS') as [gs [Et Hall]].
    exists (g' :: gs). cbn [trace]. rewrite E. cbn [bind]. rewrite Et.
    split; [reflexivity |]. constructor; assumption.
Qed.

Lemma always_Shown (P : GamePage -> Prop) :
  (forall g, Shown g -> P g) -> always P.
Proof.
  intros HP r cs.
  destruct (init_Shown r) as [g0 [E0 HS]].
  destruct (trace_Shown cs g0 HS) as [gs [Et Hall]].
  exists g0, gs. split; [exact E0 |]. split; [exact Et |].
  constructor; [apply HP; exact HS |].
  eapply Forall_impl; [| exact Hall]. exact HP.
Qed.




Lemma GamePage_init_fresh (r : nat) :
  exists g,
    GamePage_init r = Ok g /\ Shown g /\
    score g = 0%Z /\ rounds g = 0%Z /\ answered g = false /\
    choice_var g = "" /\ score_lbl g = "Score: 0/0" /\ dialogs g = [].
Proof.
  destruct (init_Shown r) as [g [E HS]].
  exists g. split; [exact E |]. split; [exact HS |].
  unfold GamePage_init in E. cbv zeta in E.
  match type of E with
  | new_round r ?p = _ =>
      destruct (new_round_form r p eq_refl eq_refl)
        as [s [bg [cv' [_ [_ [_ [_ [_ En]]]]]]]]
  end.
  rewrite En in E. injection E as <-.
  repeat split; reflexivity.
Qed.


(** ** What the widgets show *)

(** X14. On a running game screen the score label always reads
    "Score: <score>/<rounds>" for the current counters, although only a
    counted submit rewrites it. *)
Theorem score_label_in_sync :
  always (fun g =>
            score_lbl g =
              String.concat "" ["Score: "; str_of_int (score g); "/"; str_of_int (rounds g)]).
Proof. apply always_Shown. intros g HS. exact (shown_label g HS). Qed.

(** X15. On a running game screen the feedback widget shows the round prompt
    while the round is unanswered, and once it is answered the feedback text
    composed for the current scenario, with one of the two verdicts. *)
Theorem feedback_in_sync :
  always (fun g =>
            if answered g
            then exists s correct,
                   current g = Some s /\ msg g = feedback_text s correct
            else msg g =
                   "Pick the particle based on curvature (sign), radius (momentum), and line width (dE/dx).").
Proof. apply always_Shown. intros g HS. exact (shown_msg g HS). Qed.


(** X17. On a running game screen the canvas never accumulates drawings: it holds
    what [draw_background] leaves, 71 items, followed by the track of the
    current scenario only, which is at most three items, all inside the
    margin-inset rectangle; so it never holds more than 74 items however
    many rounds were played. *)
Theorem canvas_shows_current_round_only :
  always (fun g =>
            exists s bg track,
              current g = Some s /\
              length bg = 71%nat /\
              draw_background g = Ok (set_canvas (mkCanvas 720 680 bg) g) /\
              draw s (mkCanvas 720 680 bg) World_default = Ok (canvas g) /\
              canvas g = mkCanvas 720 680 (bg ++ track) /\
              (length track <= 3)%nat /\
              Forall (item_in_inset World_default (canvas g)) track /\
              (length (items (canvas g)) <= 74)%nat).
Proof.
  apply always_Shown. intros g HS.
  destruct (shown_canvas g HS) as [Hcw [Hch [s [bg [Es [Lb [Eb Ed]]]]]]].
  destruct (inv_current g (shown_inv g HS)) as [s' [Es' Hin]].
  assert (s' = s) by congruence. subst s'.
  destruct (draw_catalogue_in_inset s (mkCanvas 720 680 bg) Hin)
    as [track [Ed' [Lt Ht]]]; [simpl; lia | simpl; lia |].
  cbn [cv_width cv_height items] in Ed'.
  assert (Ecv : canvas g = mkCanvas 720 680 (bg ++ track)) by congruence.
  exists s, bg, track.
  split; [exact Es |]. split; [exact Lb |]. split; [exact Eb |].
  split; [exact Ed |]. split; [exact Ecv |]. split; [exact Lt |].
  split.
  - eapply Forall_impl; [| exact Ht].
    intros it. unfold item_in_inset. rewrite Ecv. cbn [cv_width cv_height].
    exact (fun H => H).
  - rewrite Ecv. cbn [items]. rewrite length_app. lia.
Qed.

(** ** Scoring *)





(** * Clue lines, the clues page and the application shell *)

Lemma clue_lines_of_catalogue :
  map clue_line make_scenarios =
    [ "turns left (+), tight curvature, faint ionization";
      "turns right (−), tight curvature, faint ionization";
      "turns right (−), gentle curvature, thin ionization";
      "turns left (+), gentle curvature, thin ionization";
      "turns left (+), gentle curvature, thick ionization";
      "conversion V with opposite curvature";
      "neutral (no primary), none curvature" ].
Proof.
  unfold make_scenarios. cbn [app map]. unfold clue_line. cbn [tags].
  vm_compute. reflexivity.
Qed.

(** X20. The clue line shown with the feedback tells the seven scenarios apart:
    the clue lines of the catalogue are pairwise distinct, so two catalogue
    scenarios with the same clue line have the same answer. *)
Theorem clue_lines_identify_answers :
  NoDup (map clue_line make_scenarios) /\
  (forall s1 s2, In s1 make_scenarios -> In s2 make_scenarios ->
                 clue_line s1 = clue_line s2 -> answer s1 = answer s2).
Proof.
  assert (HN : NoDup (map clue_line make_scenarios)).
  { rewrite clue_lines_of_catalogue.
    repeat (constructor; [cbn [In]; intuition discriminate |]).
    constructor. }
  split; [exact HN |].
  intros s1 s2 H1 H2 E.
  destruct (In_nth_error _ _ H1) as [i Ei].
  destruct (In_nth_error _ _ H2) as [j Ej].
  assert (Hi : (i < length (map clue_line make_scenarios))%nat).
  { rewrite length_map. apply nth_error_Some. congruence. }
  assert (Eij : i = j).
  { apply (proj1 (NoDup_nth_error _) HN i j Hi).
    rewrite !nth_error_map, Ei, Ej. cbn [option_map]. congruence. }
  subst j. congruence.
Qed.

Lemma clue_lines_identify_answers_witness :
  clue_line proton_scenario <> clue_line muplus_scenario.
Proof.
  intros E.
  assert (H : answer proton_scenario = answer muplus_scenario).
  { apply (proj2 clue_lines_identify_answers);
      [apply proton_scenario_in_catalogue | apply muplus_scenario_in_catalogue | exact E]. }
  discriminate H.
Defined.

(** ** The clues page *)

Lemma clues_draw_background_items (p : CluesPage) :
  xmax (clues_world p) <> xmin (clues_world p) ->
  ymax (clues_world p) <> ymin (clues_world p) ->
  exists bg,
    clues_draw_background p =
      Ok (clues_set_canvas
            (mkCanvas (cv_width (clues_canvas p)) (cv_height (clues_canvas p)) bg) p) /\
    length bg = 71%nat.
Proof.
  intros Hx Hy. unfold clues_draw_background. cbv zeta.
  destruct (draw_Bfield_items (delete_all (clues_canvas p)) (clues_world p) Hx Hy)
    as [n1 [E1 L1]].
  rewrite E1. cbn [bind].
  match goal with
  | |- context [draw_axes ?c (clues_world p)] =>
      destruct (draw_axes_items c (clues_world p) Hx Hy) as [n2 [E2 L2]]
  end.
  rewrite E2. cbn [bind cv_width cv_height items delete_all].
  rewrite !(to_canvas_pair (clues_world p) _ _ _ _ Hx Hy). cbn [bind].
  rewrite !add_item_items. cbn [cv_width cv_height items app].
  eexists. split; [reflexivity |].
  rewrite !length_app, L1, L2. reflexivity.
Qed.

Lemma CluesPage_init_ok :
  exists p bg,
    CluesPage_init = Ok p /\ CluesInv p /\ clue_lbl p = "" /\
    clues_canvas p = mkCanvas 700 600 bg /\ length bg = 71%nat.
Proof.
  unfold CluesPage_init. cbv zeta.
  match goal with
  | |- context [clues_draw_background ?p0] =>
      destruct (clues_draw_background_items p0) as [bg [E L]];
        [simpl; lra | simpl; lra |]
  end.
  rewrite E. eexists. exists bg. split; [reflexivity |].
  split; [constructor; reflexivity |].
  split; [reflexivity |]. split; [reflexivity | exact L].
Qed.

Lemma show_example_ok (r : nat) (p : CluesPage) :
  CluesInv p ->
  exists p' s bg track,
    show_example r p = Ok p' /\ CluesInv p' /\
    random_choice r make_scenarios = Ok s /\ In s make_scenarios /\
    clue_lbl p' = String.append "Clues: " (clue_line s) /\
    clues_canvas p' = mkCanvas 700 600 (bg ++ track) /\
    length bg = 71%nat /\ (length track <= 3)%nat /\
    Forall (item_in_inset World_default (clues_canvas p')) track.
Proof.
  intros [Hw Hs Hcw Hch Hh].
  unfold show_example.
  destruct (clues_draw_background_items p) as [bg [Eb Lb]];
    [rewrite Hw; simpl; lra | rewrite Hw; simpl; lra |].
  rewrite Eb, Hcw, Hch. cbn [bind clues_scenarios clues_set_canvas].
  rewrite Hs.
  destruct (random_choice_In r make_scenarios make_scenarios_nonempty)
    as [s [Ec Hin]].
  rewrite Ec. cbn [bind clues_canvas clues_world clues_set_canvas]. rewrite Hw.
  destruct (draw_catalogue_in_inset s (mkCanvas 700 600 bg) Hin)
    as [track [Ed [Lt Ht]]]; [simpl; lia | simpl; lia |].
  rewrite Ed. cbn [bind cv_width cv_height items].
  eexists. exists s, bg, track. split; [reflexivity |].
  split; [constructor; cbn; assumption || reflexivity |].
  split; [reflexivity |]. split; [exact Hin |].
  split; [reflexivity |]. split; [reflexivity |].
  split; [exact Lb |]. split; [exact Lt |].
  exact Ht.
Qed.


(** ** The application shell *)

Lemma showinfo_Shown (title message : string) (g : GamePage) :
  Shown g -> Shown (showinfo title message g).
Proof.
  intros HS. destruct (shown_inv g HS) as [Hw Hsc Hcur Hle Hch].
  constructor.
  - constructor; assumption.
  - exact (shown_label g HS).
  - exact (shown_msg g HS).
  - exact (shown_choice g HS).
  - apply (canvas_fresh_transfer g); [reflexivity | reflexivity | reflexivity |].
    exact (shown_canvas g HS).
Qed.

Lemma app_step_ok (app : CloudChamberApp) (a : action) :
  (exists f, _frame app = Some f /\ frame_ok f) ->
  exists app',
    app_step app a = Ok app' /\
    (exists f', _frame app' = Some f' /\ frame_ok f') /\
    (length (destroyed app) <= length (destroyed app'))%nat.
Proof.
  intros [f [Ef Hf]]. unfold app_step.
  destruct (running app); cbn [negb].
  2:{ exists app. split; [reflexivity |]. split; [exists f; split; assumption | lia]. }
  rewrite Ef.
  assert (Hsame : exists app', Ok app = Ok app' /\
            (exists f', _frame app' = Some f' /\ frame_ok f') /\
            (length (destroyed app) <= length (destroyed app'))%nat).
  { exists app. split; [reflexivity |]. split; [exists f; split; assumption | lia]. }
  assert (Htitle : exists app', show_title app = Ok app' /\
            (exists f', _frame app' = Some f' /\ frame_ok f') /\
            (length (destroyed app) <= length (destroyed app'))%nat).
  { unfold show_title, _swap. rewrite Ef. eexists. split; [reflexivity |].
    cbn [_frame destroyed]. split; [exists TitlePage; split; [reflexivity | exact I] |].
    rewrite length_app. lia. }
  destruct f as [| p | g]; destruct a as [r | | | | r | c | |]; try exact Hsame;
    try exact Htitle.
  - (* Play *)
    unfold show_game. destruct (GamePage_init_fresh r) as [g [E [HS _]]].
    rewrite E. cbn [bind]. unfold _swap. rewrite Ef.
    eexists. split; [reflexivity |]. cbn [_frame destroyed].
    split; [exists (Game g); split; [reflexivity | exact HS] |].
    rewrite length_app. lia.
  - (* Read the clues *)
    unfold show_clues. destruct CluesPage_init_ok as [p [bg [E [HI _]]]].
    rewrite E. cbn [bind]. unfold _swap. rewrite Ef.
    eexists. split; [reflexivity |]. cbn [_frame destroyed].
    split; [exists (Clues p); split; [reflexivity | exact HI] |].
    rewrite length_app. lia.
  - (* Quit *)
    eexists. split; [reflexivity |]. cbn [_frame destroyed].
    split; [exists TitlePage; split; [reflexivity | exact I] | lia].
  - (* Show example *)
    destruct (show_example_ok r p Hf) as [p' [s [bg [tr [E [HI _]]]]]].
    rewrite E. cbn [bind]. eexists. split; [reflexivity |].
    cbn [_frame destroyed set_frame].
    split; [exists (Clues p'); split; [reflexivity | exact HI] | lia].
  - (* A call on the game page *)
    destruct (step_Shown c g Hf) as [g' [E HS]].
    rewrite E. cbn [bind]. eexists. split; [reflexivity |].
    cbn [_frame destroyed set_frame].
    split; [exists (Game g'); split; [reflexivity | exact HS] | lia].
  - (* Help *)
    eexists. split; [reflexivity |]. cbn [_frame destroyed set_frame].
    split; [| lia].
    exists (Game (show_help g)). split; [reflexivity |].
    apply showinfo_Shown. exact Hf.
Qed.

(** X22. The application never raises and always has a page mounted: after
    construction and after any sequence of button presses, with any random
    draws, one page is mounted; when it is the game page its counters
    satisfy 0 <= score <= rounds, its score label reads the current counters
    and its canvas shows the background and the current track only; when it
    is the clues page its canvas is the 700 x 600 one and its help text is
    the help text. *)
Theorem app_always_has_a_consistent_page (acts : list action) :
  exists app0 app f,
    CloudChamberApp_init = Ok app0 /\
    _frame app0 = Some TitlePage /\ destroyed app0 = [] /\
    app_run acts app0 = Ok app /\
    _frame app = Some f /\
    match f with
    | TitlePage => True
    | Clues p =>
        cv_width (clues_canvas p) = 700%Z /\ cv_height (clues_canvas p) = 600%Z /\
        help_txt p = HELP /\ clues_scenarios p = make_scenarios
    | Game g =>
        (0 <= score g <= rounds g)%Z /\
        score_lbl g =
          String.concat "" ["Score: "; str_of_int (score g); "/"; str_of_int (rounds g)] /\
        (exists s, current g = Some s /\ In s make_scenarios) /\
        canvas_fresh g
    end.
Proof.
  assert (Hrun : forall l app,
            (exists f, _frame app = Some f /\ frame_ok f) ->
            exists app', app_run l app = Ok app' /\
                         exists f', _frame app' = Some f' /\ frame_ok f').
  { unfold app_run. induction l as [| a l IH]; intros app H.
    - exists app. split; [reflexivity | exact H].
    - destruct (app_step_ok app a H) as [app1 [E [H1 _]]].
      cbn [foldM]. rewrite E. cbn [bind]. apply IH. exact H1. }
  destruct (Hrun acts (mkApp (Some TitlePage) [] true)) as [app [E [f [Ef Hf]]]].
  { exists TitlePage. split; [reflexivity | exact I]. }
  exists (mkApp (Some TitlePage) [] true), app, f.
  split; [reflexivity |]. split; [reflexivity |]. split; [reflexivity |].
  split; [exact E |]. split; [exact Ef |].
  destruct f as [| p | g]; [exact I | |].
  - destruct Hf as [Hw Hs Hcw Hch Hh]. repeat split; assumption.
  - cbn [frame_ok] in Hf.
    split; [exact (inv_score g (shown_inv g Hf)) |].
    split; [exact (shown_label g Hf) |].
    split; [exact (inv_current g (shown_inv g Hf)) |].
    exact (shown_canvas g Hf).
Qed.

(** X23. Scores do not outlive a visit: [show_game] never raises and always
    mounts a new game page with score and rounds 0, the label "Score: 0/0",
    an unanswered round, no selection, and a scenario of the catalogue; the
    page it replaces, if any, is destroyed and nothing else is. *)
Theorem show_game_starts_from_zero (r : nat) (app : CloudChamberApp) :
  exists g,
    show_game r app =
      Ok (mkApp (Some (Game g))
            (destroyed app ++ match _frame app with Some old => [old] | None => [] end)
            (running app)) /\
    score g = 0%Z /\ rounds g = 0%Z /\ answered g = false /\
    choice_var g = "" /\ score_lbl g = "Score: 0/0" /\
    (exists s, current g = Some s /\ In s make_scenarios).
Proof.
  destruct (GamePage_init_fresh r) as [g [E [HS [Hs [Hr [Ha [Hc [Hl _]]]]]]]].
  exists g. split.
  - unfold show_game. rewrite E. cbn [bind]. unfold _swap.
    destruct (_frame app); cbn [_frame destroyed running];
      [reflexivity | rewrite app_nil_r; reflexivity].
  - repeat split; try assumption.
    exact (inv_current g (shown_inv g HS)).
Qed.
